(** * traced_relay: the relay service (src/traced_relay/relay_service.cc)

    A shallow embedding of [perfetto::RelayService]: the derivation of the
    machine identifier hint ([GetMachineIdHint]) and the connection pairing
    engine ([OnNewIncomingConnection], [OnConnect], [OnDisconnect],
    [OnDataAvailable]).

    Conventions
    - [std::string] is [string]; raw memory handed to the hasher or produced
      by the frame serializer is [list byte].
    - Fixed-width integers are [Z] with the wrap-around written out.
    - System calls are made through a small logging monad [Sys], so that
      "this file is never consulted" is a statement about the log.
    - A handler of the engine is a function [world -> outcome world]; a
      failed [PERFETTO_CHECK] / [PERFETTO_FATAL] ends the process and is the
      result [Fatal]. *)

From Stdlib Require Import ZArith Lia Bool Ascii String.
From Stdlib Require Import Strings.Byte.
From stdpp Require Import base option list gmap.

Local Open Scope string_scope.
Local Open Scope Z_scope.

(** ** Build configuration

    perfetto/base/build_config.h and perfetto/base/logging.h are not part of
    the sources at hand; what this file uses of them is a build-time choice. *)

Inductive OS := Android | Linux | Apple | OtherOS.

Record BuildConfig := {
  (* PERFETTO_BUILDFLAG(PERFETTO_OS_...) *)
  os : OS;
  (* PERFETTO_DCHECK_IS_ON(): PERFETTO_DCHECK and PERFETTO_DFATAL, the
     D-prefixed macros, are compiled to PERFETTO_CHECK and PERFETTO_FATAL when
     it is set and to nothing otherwise. *)
  dcheck_is_on : bool
}.

(* #if ANDROID || LINUX || APPLE *)
Definition os_android_linux_apple (o : OS) : bool :=
  match o with Android | Linux | Apple => true | OtherOS => false end.

(* #if LINUX || ANDROID *)
Definition os_linux_android (o : OS) : bool :=
  match o with Android | Linux => true | _ => false end.

(** ** Strings (perfetto/ext/base/string_utils.h) *)

Module StringUtils.

Definition newline : string := String (ascii_of_nat 10) EmptyString.

(** Modelled from the spec: base::EndsWith and base::StripSuffix, used to
    "strip a single trailing newline"; [StripSuffix str suffix] is [str]
    without [suffix] when [str] ends with it and [str] otherwise. *)
Definition EndsWith (str suffix : string) : bool :=
  if (String.length str <? String.length suffix)%nat then false
  else String.eqb
         (substring (String.length str - String.length suffix)
                    (String.length suffix) str)
         suffix.

Definition StripSuffix (str suffix : string) : string :=
  if EndsWith str suffix
  then substring 0 (String.length str - String.length suffix) str
  else str.

(* One hexadecimal digit, lower case. *)
Definition hex_char (d : Z) : ascii :=
  if d <? 10 then ascii_of_nat (48 + Z.to_nat d)
  else ascii_of_nat (87 + Z.to_nat d).

Fixpoint hex_digits (fuel : nat) (n : Z) (acc : string) : string :=
  match fuel with
  | O => acc
  | S fuel' =>
      let acc' := String (hex_char (n mod 16)) acc in
      if n / 16 =? 0 then acc' else hex_digits fuel' (n / 16) acc'
  end.

(** Modelled from the spec: base::Uint64ToHexStringNoPrefix, "the digest
    encoded as a lowercase hexadecimal string with no prefix" (printf's
    %x on a 64-bit unsigned: no leading zeros, "0" for zero).  The
    argument is a uint64_t, so a [Z] is reduced modulo 2^64 first. *)
Definition Uint64ToHexStringNoPrefix (n : Z) : string :=
  hex_digits 16 (n mod 2 ^ 64) EmptyString.

Arguments Uint64ToHexStringNoPrefix : simpl never.

Definition is_lower_hex (c : ascii) : bool :=
  let n := nat_of_ascii c in
  ((48 <=? n) && (n <=? 57) || (97 <=? n) && (n <=? 102))%nat.

Fixpoint string_forall (p : ascii -> bool) (s : string) : bool :=
  match s with
  | EmptyString => true
  | String c s' => p c && string_forall p s'
  end.

(* A well-formed digest: 1 to 16 lower-case hexadecimal digits. *)
Definition is_hex_digest (s : string) : bool :=
  negb (String.eqb s "")
  && (String.length s <=? 16)%nat
  && string_forall is_lower_hex s.

Definition is_newline (c : ascii) : bool := Ascii.eqb c (ascii_of_nat 10).

(* No character of [s] is a newline. *)
Definition no_newline (s : string) : bool :=
  string_forall (fun c => negb (is_newline c)) s.

(* Value of a string of hexadecimal digits, most significant first. *)
Definition hex_value (c : ascii) : Z :=
  let n := Z.of_nat (nat_of_ascii c) in
  if n <=? 57 then n - 48 else n - 87.

Fixpoint parse_hex (s : string) (acc : Z) : Z :=
  match s with
  | EmptyString => acc
  | String c s' => parse_hex s' (16 * acc + hex_value c)
  end.

End StringUtils.

(** ** System calls *)

Inductive Syscall :=
| SysReadFile (path : string)   (* base::ReadFile: open + read *)
| SysStat (path : string)       (* stat(2) *)
| SysStatx (path : string)      (* statx(2) with STATX_BTIME *)
| SysUname.                     (* uname(2) *)

(** What the operating system answers.  [None] is failure: [ReadFile]
    returning false, a system call returning -1 (after PERFETTO_EINTR has
    retried the interrupted ones).  A successful stat/statx gives the bytes of
    the birth-time field, a successful uname the bytes of [struct utsname]. *)
Record Env := {
  env_ReadFile : string -> option string;
  env_stat_birthtimespec : string -> option (list byte);
  env_statx_btime : string -> option (list byte);
  env_uname : option (list byte)
}.

(** Computations that read the environment and log the calls they make. *)
Definition Sys (A : Type) : Type := Env -> list Syscall -> A * list Syscall.

#[global] Instance sys_ret : MRet Sys := fun A a _ log => (a, log).

#[global] Instance sys_bind : MBind Sys := fun A B k m env log =>
  let '(a, log') := m env log in k a env log'.

Definition sys_call {A} (c : Syscall) (answer : Env -> A) : Sys A :=
  fun env log => (answer env, (log ++ [c])%list).

Definition ReadFile (path : string) : Sys (option string) :=
  sys_call (SysReadFile path) (fun env => env_ReadFile env path).
Definition stat (path : string) : Sys (option (list byte)) :=
  sys_call (SysStat path) (fun env => env_stat_birthtimespec env path).
Definition statx (path : string) : Sys (option (list byte)) :=
  sys_call (SysStatx path) (fun env => env_statx_btime env path).
Definition uname : Sys (option (list byte)) :=
  sys_call SysUname env_uname.

(* Run a computation from an empty log. *)
Definition run_sys {A} (m : Sys A) (env : Env) : A * list Syscall := m env [].

(** ** RelayService::GetMachineIdHint *)

Section MachineIdHint.

(** base::Hasher (perfetto/ext/base/hash.h) is not part of the sources at
    hand: its state, [Update] and [digest] are taken as given. *)
Context {HasherT : Type}.
Variable Hasher : HasherT.                               (* base::Hasher hasher; *)
Variable Update : HasherT -> list byte -> HasherT.         (* hasher.Update(data, size) *)
Variable digest : HasherT -> Z.                            (* hasher.digest() *)

Variable cfg : BuildConfig.

Definition boot_id_path : string := "/proc/sys/kernel/random/boot_id".

(* The lambda [get_pseudo_boot_id]. *)
Definition get_pseudo_boot_id : Sys string :=
  let hasher := Hasher in
  let dev_path := "/dev" in
  (* Source 1: creation time of the /dev inode. *)
  rc ← (match os cfg with
         | Apple => stat dev_path
         | _ => statx dev_path
         end);
  match rc with
  | None => mret ""
  | Some btime =>
      let hasher := Update hasher btime in
      (* Source 2: uname(2). *)
      kernel_info ← uname;
      match kernel_info with
      | None => mret ""
      | Some info =>
          let hasher := Update hasher info in
          mret (StringUtils.Uint64ToHexStringNoPrefix (digest hasher))
      end
  end.

Definition GetMachineIdHint (use_pseudo_boot_id_for_testing : bool)
  : Sys string :=
  (* !use_pseudo_boot_id_for_testing && base::ReadFile(...) *)
  boot_id ← (if negb use_pseudo_boot_id_for_testing
              then ReadFile boot_id_path
              else mret None);
  match boot_id with
  | Some boot_id => mret (StringUtils.StripSuffix boot_id StringUtils.newline)
  | None =>
      if os_android_linux_apple (os cfg) then
        pseudo_boot_id ← get_pseudo_boot_id;
        if negb (String.eqb pseudo_boot_id "")
        then mret pseudo_boot_id
        else mret ""
      else
        (* If all above failed, return nothing. *)
        mret ""
  end.

(** *** Vocabulary for the statements about [GetMachineIdHint] *)

(* The birth-time call this platform makes, and its answer. *)
Definition btime_call : Syscall :=
  match os cfg with Apple => SysStat "/dev" | _ => SysStatx "/dev" end.

Definition btime_source (env : Env) : option (list byte) :=
  match os cfg with
  | Apple => env_stat_birthtimespec env "/dev"
  | _ => env_statx_btime env "/dev"
  end.

(* What follows the boot-id branch: the pseudo boot id where the platform
   has one, nothing elsewhere. *)
Definition fallback : Sys string :=
  if os_android_linux_apple (os cfg) then get_pseudo_boot_id else mret "".

(* The digest of the two fallback inputs, in hexadecimal. *)
Definition pseudo_digest (btime info : list byte) : string :=
  StringUtils.Uint64ToHexStringNoPrefix
    (digest (Update (Update Hasher btime) info)).

End MachineIdHint.

(** ** Process outcome: PERFETTO_CHECK, PERFETTO_FATAL and their debug forms *)

Inductive FatalError :=
| FatalListen            (* Start: "Failed to listen to socket" *)
| DcheckListenSocket     (* OnNewIncomingConnection: listen_socket == listening_socket_.get() *)
| CheckAvailableBytes    (* OnNewIncomingConnection: server.available_bytes() >= req.size() *)
| CheckPendingFound      (* OnConnect: it != pending_connections_.end() *)
| DfatalUnreachable.     (* OnDisconnect / OnDataAvailable: "Should be unreachable." *)

(** The process either goes on with a value or is terminated. *)
Inductive outcome (A : Type) : Type :=
| Ok (a : A)
| Fatal (why : FatalError).
Arguments Ok {A} a.
Arguments Fatal {A} why.

#[global] Instance outcome_ret : MRet outcome := fun A a => Ok a.

#[global] Instance outcome_bind : MBind outcome := fun A B k m =>
  match m with
  | Ok a => k a
  | Fatal why => Fatal why
  end.

Definition is_Fatal {A} (r : outcome A) : bool :=
  match r with Fatal _ => true | Ok _ => false end.

Definition PERFETTO_CHECK (x : bool) (why : FatalError) : outcome unit :=
  if x then Ok tt else Fatal why.

Definition PERFETTO_FATAL (why : FatalError) : outcome unit := Fatal why.

(** The debug forms.  perfetto/base/logging.h defines PERFETTO_DCHECK as
    PERFETTO_CHECK and PERFETTO_DFATAL as PERFETTO_FATAL when
    PERFETTO_DCHECK_IS_ON(), and both as no-ops that do not evaluate their
    argument otherwise. *)
Definition PERFETTO_DCHECK (cfg : BuildConfig) (x : bool) (why : FatalError)
  : outcome unit :=
  if dcheck_is_on cfg then PERFETTO_CHECK x why else Ok tt.

Definition PERFETTO_DFATAL (cfg : BuildConfig) (why : FatalError)
  : outcome unit :=
  if dcheck_is_on cfg then PERFETTO_FATAL why else Ok tt.

(** ** Sockets and frames: the collaborators' data *)

(* Address of a live object; a null pointer is [None : option ptr]. *)
Definition ptr := positive.

(* A raw socket handle (file descriptor). *)
Definition fd := Z.

(** What this file reads of a base::UnixSocket.  The object belongs to the
    socket library, which changes it between callbacks; a callback is given
    the object as it is when the callback runs. *)
Record UnixSocket := {
  this : ptr;                  (* the object's address *)
  sock_raw_ : option fd;       (* its UnixSocketRaw; [None] once released or shut down *)
  is_listening : bool;
  peer_uid_posix : Z;          (* uid_t *)
  peer_pid_linux : Z           (* pid_t *)
}.

(* UnixSocket::ReleaseSocket(): the raw handle moves out of the object. *)
Definition ReleaseSocket (s : UnixSocket) : option fd * UnixSocket :=
  (sock_raw_ s,
   {| this := this s; sock_raw_ := None; is_listening := is_listening s;
      peer_uid_posix := peer_uid_posix s; peer_pid_linux := peer_pid_linux s |}).

(* ~UnixSocket(): the handles closed when the object dies. *)
Definition destroy_UnixSocket (s : UnixSocket) : list fd :=
  match sock_raw_ s with Some h => [h] | None => [] end.

(* static_cast<int32_t>(x) *)
Definition to_int32 (x : Z) : Z := (x + 2 ^ 31) mod 2 ^ 32 - 2 ^ 31.

(* static_cast<uint32_t>(x) *)
Definition to_uint32 (x : Z) : Z := x mod 2 ^ 32.

(** protos/perfetto/ipc/wire_protocol.gen.h: the fields this file sets.  A
    field that was never set is [None]. *)
Record SetPeerIdentity := {
  pid : option Z;
  uid : option Z;
  machine_id_hint : option string
}.

Record IPCFrame := {
  request_id : option Z;
  set_peer_identity : option SetPeerIdentity
}.

Definition IPCFrame_new : IPCFrame :=
  {| request_id := None; set_peer_identity := None |}.
Definition SetPeerIdentity_new : SetPeerIdentity :=
  {| pid := None; uid := None; machine_id_hint := None |}.

Definition set_request_id (v : Z) (f : IPCFrame) : IPCFrame :=
  {| request_id := Some v; set_peer_identity := set_peer_identity f |}.
Definition set_pid (v : Z) (m : SetPeerIdentity) : SetPeerIdentity :=
  {| pid := Some v; uid := uid m; machine_id_hint := machine_id_hint m |}.
Definition set_uid (v : Z) (m : SetPeerIdentity) : SetPeerIdentity :=
  {| pid := pid m; uid := Some v; machine_id_hint := machine_id_hint m |}.
Definition set_machine_id_hint (v : string) (m : SetPeerIdentity)
  : SetPeerIdentity :=
  {| pid := pid m; uid := uid m; machine_id_hint := Some v |}.

(* ipc_frame.mutable_set_peer_identity(), followed by the setters [k]. *)
Definition mutable_set_peer_identity
  (k : SetPeerIdentity -> SetPeerIdentity) (f : IPCFrame) : IPCFrame :=
  {| request_id := request_id f;
     set_peer_identity :=
       Some (k (default SetPeerIdentity_new (set_peer_identity f))) |}.

(** Modelled from the spec: SocketWithBuffer and SocketPair of
    src/traced_relay/socket_relay_handler.h, "a raw socket handle plus a
    fixed-capacity byte buffer with three operations: remaining capacity, a
    writable region, and commit N bytes as pending output".  The pending
    output is the first [data_size_] bytes of [buf]. *)
Record SocketWithBuffer := {
  sock : option fd;
  buf : list byte;
  data_size_ : nat
}.

Definition SocketPair : Type := SocketWithBuffer * SocketWithBuffer.

(* SocketWithBuffer(): no handle, [kBuffSize] bytes of storage, nothing pending. *)
Definition SocketWithBuffer_new (kBuffSize : nat) : SocketWithBuffer :=
  {| sock := None; buf := replicate kBuffSize x00; data_size_ := 0 |}.

(* Remaining capacity. *)
Definition available_bytes (s : SocketWithBuffer) : nat :=
  (length (buf s) - data_size_ s)%nat.

(* The pending output: data() .. data() + data_size(). *)
Definition data (s : SocketWithBuffer) : list byte :=
  take (data_size_ s) (buf s).

(* memcpy(s.buffer(), src.data(), src.size()): [src] over the writable
   region, which starts at [data_size_]. *)
Definition memcpy_buffer (src : list byte) (s : SocketWithBuffer)
  : SocketWithBuffer :=
  {| sock := sock s;
     buf := (take (data_size_ s) (buf s) ++ src
             ++ drop (data_size_ s + length src) (buf s))%list;
     data_size_ := data_size_ s |}.

(* Commit [bytes] bytes as pending output. *)
Definition EnqueueData (bytes : nat) (s : SocketWithBuffer) : SocketWithBuffer :=
  {| sock := sock s; buf := buf s; data_size_ := (data_size_ s + bytes)%nat |}.

Definition set_sock (h : option fd) (s : SocketWithBuffer) : SocketWithBuffer :=
  {| sock := h; buf := buf s; data_size_ := data_size_ s |}.

(* ~SocketWithBuffer(): the handle it holds is closed. *)
Definition destroy_SocketWithBuffer (s : SocketWithBuffer) : list fd :=
  match sock s with Some h => [h] | None => [] end.

(* ~SocketPair(): members die in reverse order. *)
Definition destroy_SocketPair (p : SocketPair) : list fd :=
  (destroy_SocketWithBuffer (snd p) ++ destroy_SocketWithBuffer (fst p))%list.

(** ** RelayService: the connection pairing engine *)

(** One in-flight pairing.  [socket_pair] is never null while the entry is in
    [pending_connections_]: it is made by std::make_unique when the entry is
    created and moved out only by [OnConnect], which erases the entry before
    it returns.  [connecting_client_conn] owns the outbound UnixSocket; the
    engine uses its address only. *)
Record PendingConnection := {
  socket_pair : SocketPair;
  connecting_client_conn : ptr
}.

Record RelayService := {
  listening_socket_ : option UnixSocket;
  client_socket_name_ : string;
  machine_id_hint_ : string;
  pending_connections_ : list PendingConnection;
  (* SocketRelayHandler: the pairs given to AddSocketPair, oldest first *)
  socket_relay_handler_ : list SocketPair
}.

(** The service with what it has done to the outside: the raw handles
    closed so far, oldest first. *)
Record world := {
  relay : RelayService;
  closed : list fd
}.

Definition set_pending (l : list PendingConnection) (r : RelayService)
  : RelayService :=
  {| listening_socket_ := listening_socket_ r;
     client_socket_name_ := client_socket_name_ r;
     machine_id_hint_ := machine_id_hint_ r;
     pending_connections_ := l;
     socket_relay_handler_ := socket_relay_handler_ r |}.

(* SocketRelayHandler::AddSocketPair: the handler takes the pair over. *)
Definition AddSocketPair (p : SocketPair) (r : RelayService) : RelayService :=
  {| listening_socket_ := listening_socket_ r;
     client_socket_name_ := client_socket_name_ r;
     machine_id_hint_ := machine_id_hint_ r;
     pending_connections_ := pending_connections_ r;
     socket_relay_handler_ := (socket_relay_handler_ r ++ [p])%list |}.

Definition close_all (l : list fd) (r : RelayService) (w : world) : world :=
  {| relay := r; closed := (closed w ++ l)%list |}.

(** ~PendingConnection(): members die in reverse order of declaration, the
    connecting UnixSocket first (taken as it is now), then the socket pair
    unless it was moved out ([None]). *)
Definition destroy_PendingConnection
  (pair : option SocketPair) (conn : UnixSocket) : list fd :=
  (destroy_UnixSocket conn
   ++ match pair with Some p => destroy_SocketPair p | None => [] end)%list.

Section Engine.

Context {HasherT : Type}.
Variable Hasher : HasherT.
Variable Update : HasherT -> list byte -> HasherT.
Variable digest : HasherT -> Z.

(** ipc::BufferedFrameDeserializer::Serialize (src/ipc) is not part of the
    sources at hand: the wire encoding of a frame is taken as given. *)
Variable Serialize : IPCFrame -> list byte.

(** SocketWithBuffer::kBuffSize, the fixed capacity of a staging buffer. *)
Variable kBuffSize : nat.

Variable cfg : BuildConfig.

(** RelayService::RelayService: the hint is computed once, with the default
    argument of [GetMachineIdHint] (no test mode). *)
Definition RelayService_new (env : Env) : RelayService :=
  {| listening_socket_ := None;
     client_socket_name_ := "";
     machine_id_hint_ :=
       fst (run_sys (GetMachineIdHint Hasher Update digest cfg false) env);
     pending_connections_ := [];
     socket_relay_handler_ := [] |}.

Definition world_new (env : Env) : world :=
  {| relay := RelayService_new env; closed := [] |}.

(** RelayService::Start.  [listened] is what base::UnixSocket::Listen
    returned: a null pointer or a socket. *)
Definition Start (listening_socket_name client_socket_name : string)
  (listened : option UnixSocket) (w : world) : outcome world :=
  let r := relay w in
  let producer_socket_listening :=
    match listened with
    | Some s => is_listening s
    | None => false
    end in
  _ ← (if negb producer_socket_listening
       then PERFETTO_FATAL FatalListen else Ok tt);
  Ok {| relay :=
          {| listening_socket_ := listened;
             client_socket_name_ := client_socket_name;
             machine_id_hint_ := machine_id_hint_ r;
             pending_connections_ := pending_connections_ r;
             socket_relay_handler_ := socket_relay_handler_ r |};
        closed := (closed w
                   ++ from_option destroy_UnixSocket [] (listening_socket_ r))%list |}.

(** The forged SetPeerIdentity frame for the peer of [server_conn]. *)
Definition forged_frame (machine_id : string) (server_conn : UnixSocket)
  : IPCFrame :=
  let ipc_frame := IPCFrame_new in
  let ipc_frame := set_request_id 0 ipc_frame in
  mutable_set_peer_identity
    (fun m =>
       let m := if os_linux_android (os cfg)
                then set_pid (peer_pid_linux server_conn) m else m in
       let m := set_uid (to_int32 (peer_uid_posix server_conn)) m in
       set_machine_id_hint machine_id m)
    ipc_frame.

(** RelayService::OnNewIncomingConnection.  [client_conn] is the object
    base::UnixSocket::Connect returned for [client_socket_name_]. *)
Definition OnNewIncomingConnection (listen_socket : ptr)
  (server_conn client_conn : UnixSocket) (w : world) : outcome world :=
  let r := relay w in
  _ ← PERFETTO_DCHECK cfg
        (bool_decide (Some listen_socket = this <$> listening_socket_ r))
        DcheckListenSocket;
  let ipc_frame := forged_frame (machine_id_hint_ r) server_conn in
  (* Buffer the SetPeerIdentity request. *)
  let req := Serialize ipc_frame in
  let server := SocketWithBuffer_new kBuffSize in
  let client := SocketWithBuffer_new kBuffSize in
  _ ← PERFETTO_CHECK (length req <=? available_bytes server)%nat
        CheckAvailableBytes;
  let server := memcpy_buffer req server in
  let server := EnqueueData (length req) server in
  let '(raw, server_conn) := ReleaseSocket server_conn in
  let server := set_sock raw server in
  let new_socket_pair := (server, client) in
  let pending :=
    (pending_connections_ r
     ++ [{| socket_pair := new_socket_pair;
            connecting_client_conn := this client_conn |}])%list in
  (* |server_conn| dies here, its handle already released. *)
  Ok (close_all (destroy_UnixSocket server_conn) (set_pending pending r) w).

(** RelayService::OnConnect.  The scope-exit [remover] erases the entry on
    both ways out; erasing destroys it. *)
Definition OnConnect (self : UnixSocket) (connected : bool) (w : world)
  : outcome world :=
  let r := relay w in
  let it :=
    list_find (fun pending_conn =>
                 connecting_client_conn pending_conn = this self)
              (pending_connections_ r) in
  match it with
  | None => Fatal CheckPendingFound
  | Some (i, pending_conn) =>
      if negb connected then
        (* This closes both sockets in PendingConnection. *)
        Ok (close_all
              (destroy_PendingConnection (Some (socket_pair pending_conn)) self)
              (set_pending (delete i (pending_connections_ r)) r) w)
      else
        (* Shut down event handlers and pair with a server connection. *)
        let '(raw, self) := ReleaseSocket self in
        let pair := (fst (socket_pair pending_conn),
                     set_sock raw (snd (socket_pair pending_conn))) in
        (* Transfer the socket pair to SocketRelayHandler. *)
        let r := AddSocketPair pair r in
        Ok (close_all
              (destroy_PendingConnection None self)
              (set_pending (delete i (pending_connections_ r)) r) w)
  end.

(** RelayService::OnDisconnect and RelayService::OnDataAvailable. *)
Definition OnDisconnect (self : UnixSocket) (w : world) : outcome world :=
  _ ← PERFETTO_DFATAL cfg DfatalUnreachable;
  Ok w.

Definition OnDataAvailable (self : UnixSocket) (w : world) : outcome world :=
  _ ← PERFETTO_DFATAL cfg DfatalUnreachable;
  Ok w.

(** *** The callbacks the event loop delivers, one at a time *)

Inductive Event :=
| EvStart (listening_socket_name client_socket_name : string)
    (listened : option UnixSocket)
| EvNewIncomingConnection (listen_socket : ptr)
    (server_conn client_conn : UnixSocket)
| EvConnect (self : UnixSocket) (connected : bool)
| EvDisconnect (self : UnixSocket)
| EvDataAvailable (self : UnixSocket).

Definition dispatch (ev : Event) (w : world) : outcome world :=
  match ev with
  | EvStart l c listened => Start l c listened w
  | EvNewIncomingConnection l s c => OnNewIncomingConnection l s c w
  | EvConnect self connected => OnConnect self connected w
  | EvDisconnect self => OnDisconnect self w
  | EvDataAvailable self => OnDataAvailable self w
  end.

Fixpoint run (evs : list Event) (w : world) : outcome world :=
  match evs with
  | [] => Ok w
  | ev :: evs' => w' ← dispatch ev w; run evs' w'
  end.

(** The addresses of the outbound sockets still connecting. *)
Definition connecting (w : world) : list ptr :=
  connecting_client_conn <$> pending_connections_ (relay w).

(** What the socket library guarantees of the callbacks: the object made by
    Connect is at an address no live outbound socket has. *)
Definition event_ok (ev : Event) (w : world) : Prop :=
  match ev with
  | EvNewIncomingConnection _ _ c => this c ∉ connecting w
  | _ => True
  end.

Fixpoint run_ok (evs : list Event) (w : world) : Prop :=
  match evs with
  | [] => True
  | ev :: evs' =>
      event_ok ev w ∧
      match dispatch ev w with
      | Ok w' => run_ok evs' w'
      | Fatal _ => True
      end
  end.

(* The debug check on the listening socket lets the callback through. *)
Definition listen_socket_ok (listen_socket : ptr) (w : world) : bool :=
  negb (dcheck_is_on cfg)
  || bool_decide (Some listen_socket = this <$> listening_socket_ (relay w)).

(* The entry [OnNewIncomingConnection] records for a staged inbound side. *)
Definition pending_entry (server : SocketWithBuffer) (client_conn : UnixSocket)
  : PendingConnection :=
  {| socket_pair := (server, SocketWithBuffer_new kBuffSize);
     connecting_client_conn := this client_conn |}.

(** The worlds the service can be in: those a run of callbacks leads to
    from the freshly constructed service. *)
Definition reachable (env : Env) (w : world) : Prop :=
  exists evs, run_ok evs (world_new env) /\ run evs (world_new env) = Ok w.

(* [ev] is the resolution of the outbound socket at [p]. *)
Definition resolves (p : ptr) (ev : Event) : bool :=
  match ev with
  | EvConnect self _ => bool_decide (this self = p)
  | _ => false
  end.

End Engine.

(** ** Instances for the examples

    The statements below hold for every hasher, serializer and capacity.
    The examples need one of each to compute with. *)

Module Fnv1a.

(* 64-bit FNV-1a, one multiplication per byte, modulo 2^64. *)
Definition kOffsetBasis : Z := 14695981039346656037.
Definition kPrime : Z := 1099511628211.

Definition byte_value (b : byte) : Z := Z.of_N (Byte.to_N b).

Definition Update (h : Z) (bytes : list byte) : Z :=
  fold_left (fun h b => (Z.lxor h (byte_value b) * kPrime) mod 2 ^ 64) bytes h.

Definition digest (h : Z) : Z := h.

End Fnv1a.

Module Sample.

Definition byte_of_Z (z : Z) : byte :=
  default x00 (Byte.of_N (Z.to_N (z mod 256))).

(* The four bytes of a 32-bit value, least significant first. *)
Definition le32 (z : Z) : list byte :=
  [byte_of_Z z; byte_of_Z (z / 2 ^ 8); byte_of_Z (z / 2 ^ 16);
   byte_of_Z (z / 2 ^ 24)].

Definition field (o : option Z) : list byte :=
  match o with
  | Some z => x01 :: le32 z
  | None => [x00]
  end.

(* A length-prefixed encoding: a 32-bit size, then the fields in order. *)
Definition Serialize (f : IPCFrame) : list byte :=
  let identity := default SetPeerIdentity_new (set_peer_identity f) in
  let payload :=
    (field (request_id f) ++ field (pid identity) ++ field (uid identity)
     ++ list_byte_of_string (default "" (machine_id_hint identity)))%list in
  (le32 (Z.of_nat (length payload)) ++ payload)%list.

Definition linux_debug : BuildConfig := {| os := Linux; dcheck_is_on := true |}.
Definition linux_release : BuildConfig := {| os := Linux; dcheck_is_on := false |}.
Definition other_release : BuildConfig := {| os := OtherOS; dcheck_is_on := false |}.

(* An environment where a file holds [boot_id] (when given) and the two
   fallback sources answer [btime] and [info]. *)
Definition env_of (boot_id : option string) (btime info : option (list byte))
  : Env :=
  {| env_ReadFile := fun path =>
       if String.eqb path boot_id_path then boot_id else None;
     env_stat_birthtimespec := fun path =>
       if String.eqb path "/dev" then btime else None;
     env_statx_btime := fun path =>
       if String.eqb path "/dev" then btime else None;
     env_uname := info |}.

Definition some_btime : list byte :=
  [x10; x32; x54; x76; x00; x00; x00; x00; x01; x00; x00; x00; x00; x00; x00; x00].
Definition some_utsname : list byte :=
  list_byte_of_string "Linux relay 6.1.0 #1 SMP x86_64".

Definition boot_uuid : string := "0f3c2a7e-5b1d-4c8e-9a46-d2b7e1f0c935".

Definition env_boot_id : Env :=
  env_of (Some (boot_uuid ++ StringUtils.newline)%string)
         (Some some_btime) (Some some_utsname).

Definition producer : UnixSocket :=
  {| this := 20%positive; sock_raw_ := Some 7; is_listening := false;
     peer_uid_posix := 10123; peer_pid_linux := 4242 |}.

Definition upstream : UnixSocket :=
  {| this := 30%positive; sock_raw_ := Some 8; is_listening := false;
     peer_uid_posix := 0; peer_pid_linux := 0 |}.

(* |upstream| once its connection attempt failed: the library has shut it down. *)
Definition upstream_failed : UnixSocket :=
  {| this := 30%positive; sock_raw_ := None; is_listening := false;
     peer_uid_posix := 0; peer_pid_linux := 0 |}.

Definition listener : UnixSocket :=
  {| this := 10%positive; sock_raw_ := Some 5; is_listening := true;
     peer_uid_posix := 0; peer_pid_linux := 0 |}.

(* A second producer and the outbound socket opened for it. *)
Definition producer2 : UnixSocket :=
  {| this := 21%positive; sock_raw_ := Some 9; is_listening := false;
     peer_uid_posix := 4294967294; peer_pid_linux := 77 |}.

Definition upstream2 : UnixSocket :=
  {| this := 31%positive; sock_raw_ := Some 11; is_listening := false;
     peer_uid_posix := 0; peer_pid_linux := 0 |}.

Definition kBuffSize : nat := 128.

Definition listen_name : string := "/run/perfetto/traced-producer.sock".
Definition client_name : string := "vsock://2:20001".

(* The service once constructed and started, nothing pending. *)
Definition w0 : world :=
  {| relay := {| listening_socket_ := Some listener;
                 client_socket_name_ := client_name;
                 machine_id_hint_ := boot_uuid;
                 pending_connections_ := [];
                 socket_relay_handler_ := [] |};
     closed := [] |}.

(* Another connection is accepted and paired in between. *)
Definition interleaved : list Event :=
  [EvNewIncomingConnection 10%positive producer2 upstream2;
   EvConnect upstream2 true].

End Sample.


(** ** Vocabulary for the invariants of the engine *)

Section EngineVocabulary.

Variable Serialize : IPCFrame -> list byte.
Variable kBuffSize : nat.
Variable cfg : BuildConfig.

(* An inbound side as staged for some peer: its raw handle, and the peer's
   forged frame as the whole pending output. *)
Definition staged_inbound (hint : string) (server : SocketWithBuffer) : Prop :=
  exists s : UnixSocket,
    data server = Serialize (forged_frame cfg hint s)
    /\ sock server = sock_raw_ s.

(* A pending entry: a staged inbound side and an untouched outbound side. *)
Definition staged_entry (hint : string) (pc : PendingConnection) : Prop :=
  staged_inbound hint (fst (socket_pair pc))
  /\ snd (socket_pair pc) = SocketWithBuffer_new kBuffSize.

(* A pair in the relay handler's hands. *)
Definition handed_pair (hint : string) (p : SocketPair) : Prop :=
  staged_inbound hint (fst p) /\ data (snd p) = [].

Definition staging_inv (w : world) : Prop :=
  Forall (staged_entry (machine_id_hint_ (relay w)))
    (pending_connections_ (relay w))
  /\ Forall (handed_pair (machine_id_hint_ (relay w)))
       (socket_relay_handler_ (relay w)).

End EngineVocabulary.

(** Kinds of callbacks, and how many of a kind a run holds. *)
Definition is_accept (ev : Event) : bool :=
  match ev with EvNewIncomingConnection _ _ _ => true | _ => false end.

Definition is_resolution (outcome : bool) (ev : Event) : bool :=
  match ev with
  | EvConnect _ connected => Bool.eqb connected outcome
  | _ => false
  end.

Definition is_notification (ev : Event) : bool :=
  match ev with EvDisconnect _ | EvDataAvailable _ => true | _ => false end.

Definition count (p : Event -> bool) (evs : list Event) : nat :=
  length (List.filter p evs).

(** The raw handles the service answers for: those its listening socket,
    its pending entries and the pairs of the relay handler would close. *)
Definition held (w : world) : list fd :=
  (from_option destroy_UnixSocket [] (listening_socket_ (relay w))
   ++ (pending_connections_ (relay w)
         ≫= fun pc => destroy_SocketPair (socket_pair pc))
   ++ (socket_relay_handler_ (relay w) ≫= destroy_SocketPair))%list.

(** The raw handles a callback brings in: those of the socket it is about. *)
Definition given (ev : Event) : list fd :=
  match ev with
  | EvStart _ _ listened => from_option destroy_UnixSocket [] listened
  | EvNewIncomingConnection _ server_conn _ => destroy_UnixSocket server_conn
  | EvConnect self _ => destroy_UnixSocket self
  | EvDisconnect _ | EvDataAvailable _ => []
  end.

(** ** A longer run for the examples *)

Module SampleRuns.
Import Sample.

Definition producer3 : UnixSocket :=
  {| this := 22%positive; sock_raw_ := Some 12; is_listening := false;
     peer_uid_posix := 10123; peer_pid_linux := 4242 |}.

Definition upstream3 : UnixSocket :=
  {| this := 32%positive; sock_raw_ := Some 13; is_listening := false;
     peer_uid_posix := 0; peer_pid_linux := 0 |}.

Definition fresh_world : world :=
  world_new Fnv1a.kOffsetBasis Fnv1a.Update Fnv1a.digest linux_debug
    env_boot_id.

(* Start, two connections accepted, the second paired. *)
Definition opening : list Event :=
  [EvStart listen_name client_name (Some listener);
   EvNewIncomingConnection 10%positive producer upstream;
   EvNewIncomingConnection 10%positive producer2 upstream2;
   EvConnect upstream2 true].

(* A third connection accepted, the first one's attempt failing. *)
Definition closing : list Event :=
  [EvNewIncomingConnection 10%positive producer3 upstream3;
   EvConnect upstream_failed false].

Definition world_after (evs : list Event) (w : world) : world :=
  match run Serialize kBuffSize linux_debug evs w with
  | Ok w' => w'
  | Fatal _ => w
  end.

Definition w_mid : world := Eval vm_compute in world_after opening fresh_world.
Definition w_end : world := Eval vm_compute in world_after closing w_mid.

End SampleRuns.
(** * Properties *)

(** ** Strings *)

Module StringFacts.
Import StringUtils.

Lemma app_String (c : ascii) (s t : string) :
  (String c s ++ t)%string = String c (s ++ t).
Proof. reflexivity. Qed.

Lemma length_app (s t : string) :
  String.length (s ++ t) = (String.length s + String.length t)%nat.
Proof.
  induction s as [|c s IH]; [reflexivity|].
  rewrite app_String. simpl. now rewrite IH.
Qed.

Lemma substring_whole (t : string) : substring 0 (String.length t) t = t.
Proof. induction t as [|c t IH]; simpl; [reflexivity | now rewrite IH]. Qed.

Lemma substring_nothing (t : string) : substring 0 0 t = "".
Proof. now destruct t. Qed.

Lemma substring_tail (s t : string) :
  substring (String.length s) (String.length t) (s ++ t) = t.
Proof.
  induction s as [|c s IH]; [apply substring_whole|].
  rewrite app_String. exact IH.
Qed.

Lemma substring_head (s t : string) :
  substring 0 (String.length s) (s ++ t) = s.
Proof.
  induction s as [|c s IH]; [apply substring_nothing|].
  rewrite app_String. simpl. now rewrite IH.
Qed.

(* A string is its first [n] characters followed by the rest. *)
Lemma substring_split (s : string) :
  forall n, (n <= String.length s)%nat ->
  s = (substring 0 n s ++ substring n (String.length s - n) s)%string.
Proof.
  induction s as [|c s IH]; intros [|n] Hn; simpl in *; try reflexivity; try lia.
  - now rewrite substring_whole.
  - rewrite app_String. f_equal. apply IH. lia.
Qed.

Lemma EndsWith_app (s t : string) : EndsWith (s ++ t) t = true.
Proof.
  unfold EndsWith. rewrite length_app.
  destruct (Nat.ltb_spec (String.length s + String.length t) (String.length t));
    [lia|].
  replace (String.length s + String.length t - String.length t)%nat
    with (String.length s) by lia.
  rewrite substring_tail. apply String.eqb_refl.
Qed.

Lemma StripSuffix_app (s t : string) : StripSuffix (s ++ t) t = s.
Proof.
  unfold StripSuffix. rewrite EndsWith_app, length_app.
  replace (String.length s + String.length t - String.length t)%nat
    with (String.length s) by lia.
  apply substring_head.
Qed.

Lemma EndsWith_inv (s t : string) :
  EndsWith s t = true -> s = (StripSuffix s t ++ t)%string.
Proof.
  intros H. unfold StripSuffix. rewrite H. unfold EndsWith in H.
  destruct (Nat.ltb_spec (String.length s) (String.length t)); [discriminate|].
  apply String.eqb_eq in H.
  rewrite (substring_split s (String.length s - String.length t)) at 1 by lia.
  f_equal.
  replace (String.length s - (String.length s - String.length t))%nat
    with (String.length t) by lia.
  exact H.
Qed.

Lemma StripSuffix_other (s t : string) :
  EndsWith s t = false -> StripSuffix s t = s.
Proof. intros H. unfold StripSuffix. now rewrite H. Qed.

(* Stripping a newline leaves nothing exactly for "" and for a lone newline. *)
Lemma StripSuffix_newline_empty (s : string) :
  StripSuffix s newline = "" <-> s = "" \/ s = newline.
Proof.
  split.
  - intros H. destruct (EndsWith s newline) eqn:E.
    + right. apply EndsWith_inv in E. now rewrite H in E.
    + left. now rewrite StripSuffix_other in H.
  - now intros [-> | ->].
Qed.

Lemma string_forall_app p (s t : string) :
  string_forall p (s ++ t) = string_forall p s && string_forall p t.
Proof.
  induction s as [|c s IH]; [reflexivity|].
  rewrite app_String. simpl. now rewrite IH, andb_assoc.
Qed.

(** *** Hexadecimal digits *)

Lemma hex_char_lower (d : Z) : 0 <= d < 16 -> is_lower_hex (hex_char d) = true.
Proof.
  intros H.
  assert (d = 0 \/ d = 1 \/ d = 2 \/ d = 3 \/ d = 4 \/ d = 5 \/ d = 6 \/ d = 7
          \/ d = 8 \/ d = 9 \/ d = 10 \/ d = 11 \/ d = 12 \/ d = 13 \/ d = 14
          \/ d = 15) as Hd by lia.
  repeat (destruct Hd as [-> | Hd]; [reflexivity|]). now subst.
Qed.

Lemma hex_value_char (d : Z) : 0 <= d < 16 -> hex_value (hex_char d) = d.
Proof.
  intros H.
  assert (d = 0 \/ d = 1 \/ d = 2 \/ d = 3 \/ d = 4 \/ d = 5 \/ d = 6 \/ d = 7
          \/ d = 8 \/ d = 9 \/ d = 10 \/ d = 11 \/ d = 12 \/ d = 13 \/ d = 14
          \/ d = 15) as Hd by lia.
  repeat (destruct Hd as [-> | Hd]; [reflexivity|]). now subst.
Qed.

Lemma lower_hex_not_newline (c : ascii) :
  is_lower_hex c = true -> negb (is_newline c) = true.
Proof.
  unfold is_lower_hex, is_newline. intros H.
  destruct (Ascii.eqb_spec c (ascii_of_nat 10)) as [-> | _]; [|reflexivity].
  discriminate H.
Qed.

Lemma hex_digits_lower (fuel : nat) :
  forall n acc, 0 <= n -> string_forall is_lower_hex acc = true ->
  string_forall is_lower_hex (hex_digits fuel n acc) = true.
Proof.
  induction fuel as [|fuel IH]; intros n acc Hn Hacc; simpl; [exact Hacc|].
  assert (string_forall is_lower_hex (String (hex_char (n mod 16)) acc) = true)
    as Hacc'.
  { simpl. rewrite Hacc, hex_char_lower; [reflexivity|].
    apply Z.mod_pos_bound. lia. }
  destruct (n / 16 =? 0); [exact Hacc'|].
  apply IH; [apply Z.div_pos; lia | exact Hacc'].
Qed.

Lemma hex_digits_length (fuel : nat) :
  forall n acc,
  (String.length (hex_digits fuel n acc) <= fuel + String.length acc)%nat.
Proof.
  induction fuel as [|fuel IH]; intros n acc; simpl; [lia|].
  destruct (n / 16 =? 0); simpl; [lia|].
  etransitivity; [apply IH|]. simpl. lia.
Qed.

Lemma hex_digits_nonempty (fuel : nat) :
  forall n acc, String.length acc <> O \/ fuel <> O ->
  String.length (hex_digits fuel n acc) <> O.
Proof.
  induction fuel as [|fuel IH]; intros n acc H; simpl; [lia|].
  destruct (n / 16 =? 0); [simpl; lia|].
  apply IH. left. simpl. lia.
Qed.

(* Reading the digits back gives the number: the fuel covers every n < 16^fuel. *)
Lemma parse_hex_digits (fuel : nat) :
  forall n acc a, 0 <= n < 16 ^ Z.of_nat fuel ->
  exists k, parse_hex (hex_digits fuel n acc) a = parse_hex acc (a * 16 ^ k + n)
            /\ 0 <= k.
Proof.
  induction fuel as [|fuel IH]; intros n acc a Hn.
  - exists 0. simpl in *. split; [f_equal; lia | lia].
  - cbn [hex_digits].
    assert (0 <= n mod 16 < 16) as Hm by (apply Z.mod_pos_bound; lia).
    destruct (Z.eqb_spec (n / 16) 0) as [E | E].
    + exists 1. cbn [parse_hex]. rewrite hex_value_char by exact Hm.
      split; [f_equal|lia].
      pose proof (Z.div_mod n 16 ltac:(lia)). lia.
    + destruct (IH (n / 16) (String (hex_char (n mod 16)) acc) a) as (k & Hk & Hk0).
      { split; [apply Z.div_pos; lia|].
        apply Z.div_lt_upper_bound; [lia|].
        rewrite Nat2Z.inj_succ, Z.pow_succ_r in Hn by lia. lia. }
      exists (k + 1). rewrite Hk. cbn [parse_hex].
      rewrite hex_value_char by exact Hm.
      split; [f_equal|lia].
      rewrite Z.pow_add_r by lia.
      pose proof (Z.div_mod n 16 ltac:(lia)). lia.
Qed.

Lemma Uint64ToHexStringNoPrefix_value (n : Z) :
  parse_hex (Uint64ToHexStringNoPrefix n) 0 = n mod 2 ^ 64.
Proof.
  unfold Uint64ToHexStringNoPrefix.
  destruct (parse_hex_digits 16 (n mod 2 ^ 64) "" 0) as (k & -> & _).
  - change (16 ^ Z.of_nat 16) with (2 ^ 64). apply Z.mod_pos_bound. lia.
  - simpl. lia.
Qed.

Lemma Uint64ToHexStringNoPrefix_digest (n : Z) :
  is_hex_digest (Uint64ToHexStringNoPrefix n) = true.
Proof.
  unfold is_hex_digest, Uint64ToHexStringNoPrefix.
  assert (0 <= n mod 2 ^ 64) as H0 by (apply Z.mod_pos_bound; lia).
  rewrite hex_digits_lower by (exact H0 || reflexivity).
  pose proof (hex_digits_length 16 (n mod 2 ^ 64) "") as Hlen.
  pose proof (hex_digits_nonempty 16 (n mod 2 ^ 64) "" ltac:(right; lia)) as Hne.
  simpl in Hlen.
  destruct (String.eqb_spec (hex_digits 16 (n mod 2 ^ 64) "") "") as [E | _].
  - rewrite E in Hne. now simpl in Hne.
  - rewrite andb_true_r. simpl. apply Nat.leb_le. lia.
Qed.

Lemma hex_digest_no_newline (s : string) :
  is_hex_digest s = true -> no_newline s = true.
Proof.
  unfold is_hex_digest, no_newline. intros H.
  apply andb_true_iff in H as [_ H].
  induction s as [|c s IH]; [reflexivity|]. simpl in *.
  apply andb_true_iff in H as [Hc Hs].
  now rewrite lower_hex_not_newline, IH.
Qed.

Lemma hex_digest_nonempty (s : string) : is_hex_digest s = true -> s <> "".
Proof. intros H ->. discriminate H. Qed.

Lemma no_newline_EndsWith (s : string) :
  no_newline s = true -> EndsWith s newline = false.
Proof.
  intros H. destruct (EndsWith s newline) eqn:E; [|reflexivity].
  apply EndsWith_inv in E. rewrite E in H.
  unfold no_newline in H. rewrite string_forall_app in H.
  apply andb_true_iff in H as [_ H]. discriminate H.
Qed.

End StringFacts.

(** ** The machine identifier hint *)

Section MachineIdHintFacts.
Import StringUtils StringFacts.

Context {HasherT : Type}.
Variable Hasher : HasherT.
Variable Update : HasherT -> list byte -> HasherT.
Variable digest : HasherT -> Z.
Variable cfg : BuildConfig.

Abbreviation get_pseudo_boot_id := (get_pseudo_boot_id Hasher Update digest cfg).
Abbreviation GetMachineIdHint := (GetMachineIdHint Hasher Update digest cfg).
Abbreviation fallback := (fallback Hasher Update digest cfg).
Abbreviation pseudo_digest := (pseudo_digest Hasher Update digest).

(* The pseudo boot id, case by case: the calls made and the value. *)
Lemma get_pseudo_boot_id_run (env : Env) (log : list Syscall) :
  get_pseudo_boot_id env log =
  match btime_source cfg env with
  | None => ("", log ++ [btime_call cfg])
  | Some btime =>
      match env_uname env with
      | None => ("", (log ++ [btime_call cfg]) ++ [SysUname])
      | Some info =>
          (pseudo_digest btime info, (log ++ [btime_call cfg]) ++ [SysUname])
      end
  end%list.
Proof.
  unfold get_pseudo_boot_id, btime_source, btime_call, pseudo_digest.
  unfold mbind, sys_bind, mret, sys_ret, stat, statx, uname, sys_call.
  destruct (os cfg);
    repeat match goal with
           | |- context [match ?x with Some _ => _ | None => _ end] =>
               destruct x
           end; reflexivity.
Qed.

Lemma fallback_run (env : Env) (log : list Syscall) :
  fallback env log =
  if os_android_linux_apple (os cfg) then get_pseudo_boot_id env log
  else ("", log).
Proof. unfold fallback. now destruct (os_android_linux_apple (os cfg)). Qed.

(* With the flag set, or the file unreadable, the hint is the fallback's. *)
Lemma GetMachineIdHint_forced (env : Env) :
  run_sys (GetMachineIdHint true) env = run_sys fallback env.
Proof.
  unfold run_sys, GetMachineIdHint, fallback.
  unfold mbind, sys_bind, mret, sys_ret. cbn [negb].
  destruct (os_android_linux_apple (os cfg)); [|reflexivity].
  destruct (get_pseudo_boot_id env []) as [p log].
  destruct (String.eqb_spec p ""); cbn [negb]; congruence.
Qed.

Lemma GetMachineIdHint_unreadable (env : Env) :
  env_ReadFile env boot_id_path = None ->
  run_sys (GetMachineIdHint false) env =
  fallback env [SysReadFile boot_id_path].
Proof.
  intros H. unfold run_sys, GetMachineIdHint, fallback.
  unfold mbind, sys_bind, mret, sys_ret, ReadFile, sys_call. cbn [negb app].
  rewrite H.
  destruct (os_android_linux_apple (os cfg)); [|reflexivity].
  destruct (get_pseudo_boot_id env _) as [p log].
  destruct (String.eqb_spec p ""); cbn [negb]; congruence.
Qed.

Lemma GetMachineIdHint_readable (env : Env) (content : string) :
  env_ReadFile env boot_id_path = Some content ->
  run_sys (GetMachineIdHint false) env =
  (StripSuffix content newline, [SysReadFile boot_id_path]).
Proof.
  intros H. unfold run_sys, GetMachineIdHint.
  unfold mbind, sys_bind, mret, sys_ret, ReadFile, sys_call. cbn [negb app].
  now rewrite H.
Qed.

Lemma fallback_log_no_ReadFile (env : Env) (log : list Syscall) (path : string) :
  SysReadFile path ∉ log -> SysReadFile path ∉ snd (fallback env log).
Proof.
  intros Hlog. rewrite fallback_run.
  destruct (os_android_linux_apple (os cfg)); [|exact Hlog].
  rewrite get_pseudo_boot_id_run.
  assert (SysReadFile path <> btime_call cfg) as Hb
    by (unfold btime_call; destruct (os cfg); discriminate).
  destruct (btime_source cfg env); [destruct (env_uname env)|]; cbn;
    rewrite ?elem_of_app, ?list_elem_of_singleton; intuition congruence.
Qed.

(* The value of the fallback, by what its two sources answer. *)
Lemma fallback_value (env : Env) (log : list Syscall) :
  fst (fallback env log) =
  if os_android_linux_apple (os cfg) then
    match btime_source cfg env, env_uname env with
    | Some btime, Some info => pseudo_digest btime info
    | _, _ => ""
    end
  else "".
Proof.
  rewrite fallback_run.
  destruct (os_android_linux_apple (os cfg)); [|reflexivity].
  rewrite get_pseudo_boot_id_run.
  now destruct (btime_source cfg env); [destruct (env_uname env)|].
Qed.

Lemma pseudo_digest_hex (btime info : list byte) :
  is_hex_digest (pseudo_digest btime info) = true.
Proof. apply Uint64ToHexStringNoPrefix_digest. Qed.

(* The hint when the boot-id branch is not taken. *)
Lemma GetMachineIdHint_fallback_value (env : Env) (flag : bool) :
  flag = true \/ env_ReadFile env boot_id_path = None ->
  fst (run_sys (GetMachineIdHint flag) env) = fst (fallback env []).
Proof.
  intros [-> | H].
  - now rewrite GetMachineIdHint_forced.
  - destruct flag; [now rewrite GetMachineIdHint_forced|].
    rewrite GetMachineIdHint_unreadable by exact H.
    now rewrite !fallback_value.
Qed.

(** C6: with the test-mode flag off and the boot-id file readable, the hint
    is the file's content with one trailing newline stripped (the content
    itself when it does not end in a newline) and the only call made is the
    read of that file; with the flag on, the hint and the calls are those of
    the fallback and no file is read. *)
Theorem GetMachineIdHint_boot_id_first (env : Env) :
  (forall content, env_ReadFile env boot_id_path = Some content ->
     run_sys (GetMachineIdHint false) env
     = (StripSuffix content newline, [SysReadFile boot_id_path])
     /\ (forall s, content = (s ++ newline)%string ->
                   StripSuffix content newline = s)
     /\ (EndsWith content newline = false ->
         StripSuffix content newline = content))
  /\ run_sys (GetMachineIdHint true) env = run_sys fallback env
  /\ (forall path,
        SysReadFile path ∉ snd (run_sys (GetMachineIdHint true) env)).
Proof.
  split; [|split].
  - intros content H. split; [|split].
    + now apply GetMachineIdHint_readable.
    + intros s ->. apply StripSuffix_app.
    + apply StripSuffix_other.
  - apply GetMachineIdHint_forced.
  - intros path. rewrite GetMachineIdHint_forced.
    apply fallback_log_no_ReadFile, not_elem_of_nil.
Qed.

(** C10: when the boot-id file is readable and holds nothing, or only a
    newline, the hint is the empty string and the read of that file is the
    only call made, whatever the fallback's sources would have answered. *)
Theorem GetMachineIdHint_empty_boot_id (env : Env) (content : string) :
  env_ReadFile env boot_id_path = Some content ->
  content = "" \/ content = newline ->
  run_sys (GetMachineIdHint false) env = ("", [SysReadFile boot_id_path]).
Proof.
  intros H Hc. rewrite (GetMachineIdHint_readable env content H).
  f_equal. now apply StripSuffix_newline_empty.
Qed.

(** C5, amended: when the fallback runs on a platform that has one, the hint
    is the non-empty hex digest if both the birth timestamp and the kernel
    record are obtained, and the empty string if either is not.  The hint is
    empty exactly when the boot-id file was read and holds nothing or a lone
    newline, or the fallback ran and the platform has none or one of its two
    inputs was unavailable. *)
Theorem GetMachineIdHint_empty_iff (env : Env) (flag : bool) :
  let hint := fst (run_sys (GetMachineIdHint flag) env) in
  (flag = true \/ env_ReadFile env boot_id_path = None ->
   os_android_linux_apple (os cfg) = true ->
   match btime_source cfg env, env_uname env with
   | Some btime, Some info =>
       hint = pseudo_digest btime info
       /\ is_hex_digest hint = true /\ hint <> ""
   | _, _ => hint = ""
   end)
  /\ (hint = "" <->
      (flag = false
       /\ exists content, env_ReadFile env boot_id_path = Some content
                          /\ (content = "" \/ content = newline))
      \/ ((flag = true \/ env_ReadFile env boot_id_path = None)
          /\ (os_android_linux_apple (os cfg) = false
              \/ btime_source cfg env = None \/ env_uname env = None))).
Proof.
  cbv zeta. split.
  - intros Hfb Hos.
    rewrite (GetMachineIdHint_fallback_value env flag Hfb), fallback_value, Hos.
    destruct (btime_source cfg env) as [btime|]; [|reflexivity].
    destruct (env_uname env) as [info|]; [|reflexivity].
    pose proof (pseudo_digest_hex btime info) as Hhex.
    split; [reflexivity|]. split; [exact Hhex|].
    now apply hex_digest_nonempty.
  - destruct flag, (env_ReadFile env boot_id_path) as [content|] eqn:Hfile.
    1,2,4:
      (rewrite GetMachineIdHint_fallback_value, fallback_value by tauto;
       destruct (os_android_linux_apple (os cfg));
       [ destruct (btime_source cfg env) as [btime|];
         [ destruct (env_uname env) as [info|] |]
       |];
       try (pose proof (hex_digest_nonempty _ (pseudo_digest_hex btime info)));
       split; intros; try tauto; try congruence;
       repeat match goal with
              | H : _ \/ _ |- _ => destruct H
              | H : _ /\ _ |- _ => destruct H
              | H : exists _, _ |- _ => destruct H
              end; congruence).
    rewrite (GetMachineIdHint_readable env content Hfile). cbn [fst].
    rewrite StripSuffix_newline_empty. split.
    + intros H. left. split; [reflexivity|]. now exists content.
    + intros [(_ & c & Hc & H) | ([Hf | Hf] & _)]; congruence.
Qed.

(** C7, amended: the hint is a well-formed hex digest, or the content of the
    boot-id file with one trailing newline stripped, or the empty string; it
    holds no newline, embedded or trailing, whenever what is left of the
    file's content after that one newline is stripped holds none. *)
Theorem GetMachineIdHint_shape (env : Env) (flag : bool) :
  let hint := fst (run_sys (GetMachineIdHint flag) env) in
  (is_hex_digest hint = true
   \/ (flag = false
       /\ exists content, env_ReadFile env boot_id_path = Some content
                          /\ hint = StripSuffix content newline)
   \/ hint = "")
  /\ ((forall content,
         flag = false -> env_ReadFile env boot_id_path = Some content ->
         no_newline (StripSuffix content newline) = true) ->
      no_newline hint = true /\ EndsWith hint newline = false).
Proof.
  cbv zeta.
  assert (is_hex_digest (fst (fallback env [])) = true
          \/ fst (fallback env []) = "") as Hfb.
  { rewrite fallback_value.
    destruct (os_android_linux_apple (os cfg)); [|now right].
    destruct (btime_source cfg env); [|now right].
    destruct (env_uname env); [|now right].
    left. apply pseudo_digest_hex. }
  assert (forall s, is_hex_digest s = true \/ s = "" -> no_newline s = true)
    as Hnl.
  { intros s [H | ->]; [now apply hex_digest_no_newline | reflexivity]. }
  destruct flag, (env_ReadFile env boot_id_path) as [content|] eqn:Hfile.
  1,2,4:
    (rewrite GetMachineIdHint_fallback_value by tauto;
     split; [tauto|]; intros _; split;
     [|apply no_newline_EndsWith]; now apply Hnl).
  rewrite (GetMachineIdHint_readable env content Hfile). cbn [fst]. split.
  - right. left. split; [reflexivity|]. now exists content.
  - intros H. specialize (H content eq_refl eq_refl).
    split; [exact H | now apply no_newline_EndsWith].
Qed.

End MachineIdHintFacts.

(** *** The hint on sample environments *)

Example Uint64ToHexStringNoPrefix_samples :
  StringUtils.Uint64ToHexStringNoPrefix 0 = "0"
  /\ StringUtils.Uint64ToHexStringNoPrefix 255 = "ff"
  /\ StringUtils.Uint64ToHexStringNoPrefix 43981 = "abcd"
  /\ StringUtils.Uint64ToHexStringNoPrefix (2 ^ 64 - 1) = "ffffffffffffffff"
  /\ StringUtils.Uint64ToHexStringNoPrefix (2 ^ 64 + 16) = "10".
Proof. repeat split; vm_compute; reflexivity. Qed.

Example StripSuffix_samples :
  StringUtils.StripSuffix (Sample.boot_uuid ++ StringUtils.newline)
    StringUtils.newline = Sample.boot_uuid
  /\ StringUtils.StripSuffix Sample.boot_uuid StringUtils.newline
     = Sample.boot_uuid
  /\ StringUtils.StripSuffix "" StringUtils.newline = "".
Proof. repeat split; vm_compute; reflexivity. Qed.

(* The boot id is read, its newline stripped, and nothing else is called. *)
Lemma GetMachineIdHint_boot_id_first_witness :
  env_ReadFile Sample.env_boot_id boot_id_path
  = Some (Sample.boot_uuid ++ StringUtils.newline)%string
  /\ run_sys (GetMachineIdHint Fnv1a.kOffsetBasis Fnv1a.Update Fnv1a.digest
                Sample.linux_debug false) Sample.env_boot_id
     = (Sample.boot_uuid, [SysReadFile boot_id_path]).
Proof.
  split; [reflexivity|].
  destruct (GetMachineIdHint_boot_id_first Fnv1a.kOffsetBasis Fnv1a.Update
              Fnv1a.digest Sample.linux_debug Sample.env_boot_id) as [H _].
  destruct (H (Sample.boot_uuid ++ StringUtils.newline)%string eq_refl)
    as (Hrun & Hstrip & _).
  rewrite Hrun, (Hstrip Sample.boot_uuid eq_refl). reflexivity.
Defined.

(* A boot-id file holding a lone newline, with both fallback sources there. *)
Lemma GetMachineIdHint_empty_boot_id_witness :
  let env := Sample.env_of (Some StringUtils.newline)
               (Some Sample.some_btime) (Some Sample.some_utsname) in
  env_ReadFile env boot_id_path = Some StringUtils.newline
  /\ run_sys (GetMachineIdHint Fnv1a.kOffsetBasis Fnv1a.Update Fnv1a.digest
                Sample.linux_debug false) env
     = ("", [SysReadFile boot_id_path]).
Proof.
  cbv zeta. split; [reflexivity|].
  apply (GetMachineIdHint_empty_boot_id Fnv1a.kOffsetBasis Fnv1a.Update
           Fnv1a.digest Sample.linux_debug _ StringUtils.newline).
  - reflexivity.
  - right. reflexivity.
Defined.

(* C5 as stated fails: the fallback runs and the birth timestamp is obtained,
   yet uname fails and the hint is empty; and the hint is empty with the
   boot-id file readable. *)
Lemma GetMachineIdHint_one_source_counterexample :
  let env := Sample.env_of None (Some Sample.some_btime) None in
  let env' := Sample.env_of (Some "") (Some Sample.some_btime)
                (Some Sample.some_utsname) in
  (env_ReadFile env boot_id_path = None
   /\ btime_source Sample.linux_debug env = Some Sample.some_btime
   /\ run_sys (GetMachineIdHint Fnv1a.kOffsetBasis Fnv1a.Update Fnv1a.digest
                 Sample.linux_debug false) env
      = ("", [SysReadFile boot_id_path; SysStatx "/dev"; SysUname]))
  /\ (env_ReadFile env' boot_id_path = Some ""
      /\ fst (run_sys (GetMachineIdHint Fnv1a.kOffsetBasis Fnv1a.Update
                         Fnv1a.digest Sample.linux_debug false) env') = "").
Proof. cbv zeta. repeat split; vm_compute; reflexivity. Qed.

(* With both sources there the fallback gives a digest; without uname, nothing. *)
Lemma GetMachineIdHint_empty_iff_witness :
  let env := Sample.env_of None (Some Sample.some_btime)
               (Some Sample.some_utsname) in
  let hint := fst (run_sys (GetMachineIdHint Fnv1a.kOffsetBasis Fnv1a.Update
                              Fnv1a.digest Sample.linux_debug true) env) in
  hint = pseudo_digest Fnv1a.kOffsetBasis Fnv1a.Update Fnv1a.digest
           Sample.some_btime Sample.some_utsname
  /\ StringUtils.is_hex_digest hint = true /\ hint <> "".
Proof.
  cbv zeta.
  destruct (GetMachineIdHint_empty_iff Fnv1a.kOffsetBasis Fnv1a.Update
              Fnv1a.digest Sample.linux_debug
              (Sample.env_of None (Some Sample.some_btime)
                 (Some Sample.some_utsname)) true) as [H _].
  apply (H (or_introl eq_refl) eq_refl).
Defined.

(* C7 as stated fails: a boot-id file with more than the one final newline. *)
Lemma GetMachineIdHint_newline_counterexample :
  let nl := StringUtils.newline in
  let env := Sample.env_of (Some ("boot" ++ nl ++ "id" ++ nl ++ nl)%string)
               None None in
  let hint := fst (run_sys (GetMachineIdHint Fnv1a.kOffsetBasis Fnv1a.Update
                              Fnv1a.digest Sample.linux_debug false) env) in
  hint = ("boot" ++ nl ++ "id" ++ nl)%string
  /\ StringUtils.no_newline hint = false
  /\ StringUtils.EndsWith hint nl = true
  /\ StringUtils.is_hex_digest hint = false
  /\ hint <> "".
Proof.
  cbv zeta. split; [|split; [|split; [|split]]];
    [vm_compute; reflexivity .. |].
  vm_compute. discriminate.
Qed.

(* A boot id as the kernel writes it: no newline is left. *)
Lemma GetMachineIdHint_shape_witness :
  let hint := fst (run_sys (GetMachineIdHint Fnv1a.kOffsetBasis Fnv1a.Update
                              Fnv1a.digest Sample.linux_debug false)
                     Sample.env_boot_id) in
  StringUtils.no_newline hint = true
  /\ StringUtils.EndsWith hint StringUtils.newline = false.
Proof.
  cbv zeta.
  destruct (GetMachineIdHint_shape Fnv1a.kOffsetBasis Fnv1a.Update
              Fnv1a.digest Sample.linux_debug Sample.env_boot_id false)
    as [_ H].
  apply H. intros content _ Hfile.
  injection Hfile as <-. vm_compute. reflexivity.
Defined.

(** ** The pairing engine *)

Section EngineFacts.

Context {HasherT : Type}.
Variable Hasher : HasherT.
Variable Update : HasherT -> list byte -> HasherT.
Variable digest : HasherT -> Z.
Variable Serialize : IPCFrame -> list byte.
Variable kBuffSize : nat.
Variable cfg : BuildConfig.

Abbreviation OnNewIncomingConnection :=
  (OnNewIncomingConnection Serialize kBuffSize cfg).
Abbreviation dispatch := (dispatch Serialize kBuffSize cfg).
Abbreviation run := (run Serialize kBuffSize cfg).
Abbreviation run_ok := (run_ok Serialize kBuffSize cfg).
Abbreviation pending_entry := (pending_entry kBuffSize).
Abbreviation listen_socket_ok := (listen_socket_ok cfg).
Abbreviation reachable :=
  (reachable Hasher Update digest Serialize kBuffSize cfg).

Local Ltac unfold_outcome :=
  unfold mbind, outcome_bind, PERFETTO_DCHECK, PERFETTO_DFATAL,
    PERFETTO_CHECK, PERFETTO_FATAL in *.

(** *** Staging a frame in a fresh buffer *)

Lemma fresh_available : available_bytes (SocketWithBuffer_new kBuffSize) = kBuffSize.
Proof. unfold available_bytes. cbn. rewrite length_replicate. lia. Qed.

Lemma fresh_data : data (SocketWithBuffer_new kBuffSize) = [].
Proof. reflexivity. Qed.

Lemma stage_frame (req : list byte) :
  (length req <= kBuffSize)%nat ->
  let server :=
    EnqueueData (length req)
      (memcpy_buffer req (SocketWithBuffer_new kBuffSize)) in
  data server = req
  /\ data_size_ server = length req
  /\ sock server = None
  /\ length (buf server) = kBuffSize
  /\ available_bytes server = (kBuffSize - length req)%nat.
Proof.
  intros Hfit. cbv zeta. unfold EnqueueData, available_bytes, data. cbn.
  rewrite take_0, app_nil_l.
  assert (length (req ++ drop (length req) (replicate kBuffSize x00))
          = kBuffSize) as Hlen.
  { rewrite length_app, length_drop, length_replicate. lia. }
  rewrite Hlen. split; [apply take_app_length | auto].
Qed.

(** *** OnNewIncomingConnection, outcome by outcome *)

Lemma accept_dcheck l s c w :
  listen_socket_ok l w = false ->
  OnNewIncomingConnection l s c w = Fatal DcheckListenSocket.
Proof.
  unfold listen_socket_ok, OnNewIncomingConnection.
  unfold_outcome. intros H.
  apply orb_false_iff in H as [Hd Hl]. apply negb_false_iff in Hd.
  now rewrite Hd, Hl.
Qed.

Lemma accept_overflow l s c w :
  listen_socket_ok l w = true ->
  (kBuffSize < length (Serialize
                         (forged_frame cfg (machine_id_hint_ (relay w)) s)))%nat ->
  OnNewIncomingConnection l s c w = Fatal CheckAvailableBytes.
Proof.
  unfold listen_socket_ok, OnNewIncomingConnection.
  unfold_outcome. intros H Hbig. rewrite fresh_available.
  destruct (Nat.leb_spec
              (length (Serialize (forged_frame cfg (machine_id_hint_ (relay w)) s)))
              kBuffSize); [lia|].
  destruct (dcheck_is_on cfg); [|reflexivity].
  cbn in H. now rewrite H.
Qed.

Lemma accept_ok l s c w :
  listen_socket_ok l w = true ->
  (length (Serialize (forged_frame cfg (machine_id_hint_ (relay w)) s))
   <= kBuffSize)%nat ->
  exists server,
    OnNewIncomingConnection l s c w
    = Ok {| relay := set_pending
                       (pending_connections_ (relay w) ++ [pending_entry server c])
                       (relay w);
            closed := closed w |}
    /\ data server
       = Serialize (forged_frame cfg (machine_id_hint_ (relay w)) s)
    /\ data_size_ server
       = length (Serialize (forged_frame cfg (machine_id_hint_ (relay w)) s))
    /\ sock server = sock_raw_ s.
Proof.
  intros H Hfit.
  destruct (stage_frame _ Hfit) as (Hdata & Hsize & _ & _).
  eexists (set_sock (sock_raw_ s) _).
  split; [|split; [exact Hdata | split; [exact Hsize | reflexivity]]].
  unfold listen_socket_ok in H.
  unfold OnNewIncomingConnection.
  unfold_outcome. rewrite fresh_available.
  destruct (Nat.leb_spec
              (length (Serialize (forged_frame cfg (machine_id_hint_ (relay w)) s)))
              kBuffSize); [|lia].
  assert ((if dcheck_is_on cfg
           then if bool_decide (Some l = this <$> listening_socket_ (relay w))
                then Ok () else Fatal DcheckListenSocket
           else Ok ()) = Ok ()) as ->.
  { destruct (dcheck_is_on cfg); [|reflexivity]. cbn in H. now rewrite H. }
  cbn. unfold close_all. cbn. now rewrite app_nil_r.
Qed.

Lemma accept_inv l s c w w' :
  OnNewIncomingConnection l s c w = Ok w' ->
  listen_socket_ok l w = true
  /\ (length (Serialize (forged_frame cfg (machine_id_hint_ (relay w)) s))
      <= kBuffSize)%nat
  /\ exists server,
      w' = {| relay := set_pending
                         (pending_connections_ (relay w)
                          ++ [pending_entry server c])
                         (relay w);
              closed := closed w |}
      /\ data server
         = Serialize (forged_frame cfg (machine_id_hint_ (relay w)) s)
      /\ data_size_ server
         = length (Serialize (forged_frame cfg (machine_id_hint_ (relay w)) s))
      /\ sock server = sock_raw_ s.
Proof.
  intros H.
  destruct (listen_socket_ok l w) eqn:Hl;
    [|now rewrite accept_dcheck in H].
  destruct (le_lt_dec
              (length (Serialize (forged_frame cfg (machine_id_hint_ (relay w)) s)))
              kBuffSize) as [Hfit | Hbig];
    [|now rewrite accept_overflow in H].
  destruct (accept_ok l s c w Hl Hfit) as (server & Hrun & Hserver).
  rewrite Hrun in H. injection H as <-. eauto.
Qed.

(** *** OnConnect, outcome by outcome *)

Lemma connect_missing self connected w :
  this self ∉ connecting w ->
  OnConnect self connected w = Fatal CheckPendingFound.
Proof.
  intros H. unfold OnConnect.
  destruct (list_find _ _) as [[i pc]|] eqn:E; [|reflexivity].
  apply list_find_Some in E as (Hi & Hpc & _).
  destruct H. unfold connecting. rewrite <- Hpc.
  apply list_elem_of_fmap_2. eapply list_elem_of_lookup_2, Hi.
Qed.

Lemma connect_finds self w :
  this self ∈ connecting w ->
  exists i pc,
    list_find (fun pc => connecting_client_conn pc = this self)
      (pending_connections_ (relay w)) = Some (i, pc)
    /\ pending_connections_ (relay w) !! i = Some pc
    /\ connecting_client_conn pc = this self.
Proof.
  unfold connecting. intros (pc & Hpc & Hin)%list_elem_of_fmap.
  destruct (list_find_elem_of
              (fun pc => connecting_client_conn pc = this self)
              (pending_connections_ (relay w)) pc Hin (eq_sym Hpc))
    as [[i pc'] E].
  exists i, pc'. split; [exact E|].
  now apply list_find_Some in E as (Hi & Hc & _).
Qed.

Lemma connect_failed self w i pc :
  list_find (fun pc => connecting_client_conn pc = this self)
    (pending_connections_ (relay w)) = Some (i, pc) ->
  OnConnect self false w
  = Ok {| relay := set_pending (delete i (pending_connections_ (relay w)))
                     (relay w);
          closed := closed w
                    ++ destroy_PendingConnection (Some (socket_pair pc)) self |}.
Proof. intros E. unfold OnConnect. now rewrite E. Qed.

Lemma connect_succeeded self w i pc :
  list_find (fun pc => connecting_client_conn pc = this self)
    (pending_connections_ (relay w)) = Some (i, pc) ->
  OnConnect self true w
  = Ok {| relay :=
            set_pending (delete i (pending_connections_ (relay w)))
              (AddSocketPair
                 (fst (socket_pair pc),
                  set_sock (sock_raw_ self) (snd (socket_pair pc)))
                 (relay w));
          closed := closed w |}.
Proof.
  intros E. unfold OnConnect. rewrite E. cbn. unfold close_all. cbn.
  now rewrite app_nil_r.
Qed.

Lemma connect_inv self connected w w' :
  OnConnect self connected w = Ok w' ->
  exists i pc,
    list_find (fun pc => connecting_client_conn pc = this self)
      (pending_connections_ (relay w)) = Some (i, pc)
    /\ pending_connections_ (relay w') = delete i (pending_connections_ (relay w)).
Proof.
  intros H. unfold OnConnect in H.
  destruct (list_find _ _) as [[i pc]|] eqn:E; [|discriminate].
  exists i, pc. split; [reflexivity|].
  destruct connected; cbn in H; injection H as <-; reflexivity.
Qed.

(** *** What every callback preserves *)

Lemma Start_inv l c listened w w' :
  Start l c listened w = Ok w' ->
  pending_connections_ (relay w') = pending_connections_ (relay w)
  /\ machine_id_hint_ (relay w') = machine_id_hint_ (relay w)
  /\ socket_relay_handler_ (relay w') = socket_relay_handler_ (relay w).
Proof.
  unfold Start. unfold_outcome.
  destruct (negb _); [discriminate|]. now intros [= <-].
Qed.

Lemma unreachable_inv self w w' :
  OnDisconnect cfg self w = Ok w' \/ OnDataAvailable cfg self w = Ok w' ->
  w' = w.
Proof.
  unfold OnDisconnect, OnDataAvailable. unfold_outcome.
  destruct (dcheck_is_on cfg); intros [H | H]; congruence.
Qed.

(* The hint is the one computed at construction, whatever happens. *)
Lemma dispatch_hint ev w w' :
  dispatch ev w = Ok w' ->
  machine_id_hint_ (relay w') = machine_id_hint_ (relay w).
Proof.
  destruct ev as [l c listened | l s c | self connected | self | self];
    cbn [dispatch]; intros H.
  - now apply Start_inv in H.
  - apply accept_inv in H as (_ & _ & server & -> & _). reflexivity.
  - unfold OnConnect in H.
    destruct (list_find _ _) as [[i pc]|]; [|discriminate].
    destruct connected; cbn in H; injection H as <-; reflexivity.
  - now rewrite (unreachable_inv self w w' (or_introl H)).
  - now rewrite (unreachable_inv self w w' (or_intror H)).
Qed.

(* Outbound sockets still connecting stay at pairwise distinct addresses. *)
Lemma dispatch_NoDup ev w w' :
  NoDup (connecting w) -> event_ok ev w -> dispatch ev w = Ok w' ->
  NoDup (connecting w').
Proof.
  intros Hnd Hok H.
  destruct ev as [l c listened | l s c | self connected | self | self];
    cbn [dispatch] in H.
  - apply Start_inv in H as (Hp & _). unfold connecting. now rewrite Hp.
  - apply accept_inv in H as (_ & _ & server & -> & _).
    unfold connecting in *. cbn in *. rewrite fmap_app. cbn.
    apply NoDup_app. split; [exact Hnd|]. split; [|apply NoDup_singleton].
    intros p Hp ->%list_elem_of_singleton. exact (Hok Hp).
  - apply connect_inv in H as (i & pc & _ & Hp).
    unfold connecting in *. rewrite Hp, list_fmap_delete.
    eapply sublist_NoDup; [exact Hnd | apply sublist_delete].
  - now rewrite (unreachable_inv self w w' (or_introl H)).
  - now rewrite (unreachable_inv self w w' (or_intror H)).
Qed.

(* An entry stays until the callback that resolves its outbound socket. *)
Lemma dispatch_entry_stays ev w w' pc :
  pc ∈ pending_connections_ (relay w) ->
  resolves (connecting_client_conn pc) ev = false ->
  dispatch ev w = Ok w' ->
  pc ∈ pending_connections_ (relay w').
Proof.
  intros Hin Hres H.
  destruct ev as [l c listened | l s c | self connected | self | self];
    cbn [dispatch] in H.
  - apply Start_inv in H as (Hp & _). now rewrite Hp.
  - apply accept_inv in H as (_ & _ & server & -> & _).
    cbn. apply elem_of_app. now left.
  - apply connect_inv in H as (i & pc' & Hfind & ->).
    apply list_find_Some in Hfind as (Hi & Hc & _).
    cbn in Hres. apply bool_decide_eq_false in Hres.
    apply list_elem_of_lookup in Hin as [j Hj].
    apply list_elem_of_lookup.
    assert (j <> i) as Hne by (intros ->; congruence).
    destruct (decide (j < i)%nat).
    + exists j. now rewrite list_lookup_delete_lt by lia.
    + exists (pred j). rewrite list_lookup_delete_ge by lia.
      now replace (S (pred j)) with j by lia.
  - now rewrite (unreachable_inv self w w' (or_introl H)).
  - now rewrite (unreachable_inv self w w' (or_intror H)).
Qed.

Lemma run_NoDup evs : forall w w',
  NoDup (connecting w) -> run_ok evs w -> run evs w = Ok w' ->
  NoDup (connecting w').
Proof.
  induction evs as [|ev evs IH]; intros w w' Hnd Hok H; cbn in *.
  - now injection H as <-.
  - destruct Hok as [Hev Hok]. unfold mbind, outcome_bind in H.
    destruct (dispatch ev w) as [w1|] eqn:E; [|discriminate].
    eapply IH; [eapply dispatch_NoDup | |]; eauto.
Qed.

Lemma run_entry_stays evs : forall w w' pc,
  pc ∈ pending_connections_ (relay w) ->
  Forall (fun ev => resolves (connecting_client_conn pc) ev = false) evs ->
  run evs w = Ok w' ->
  pc ∈ pending_connections_ (relay w').
Proof.
  induction evs as [|ev evs IH]; intros w w' pc Hin Hres H; cbn in *.
  - now injection H as <-.
  - apply Forall_cons in Hres as [Hev Hres]. unfold mbind, outcome_bind in H.
    destruct (dispatch ev w) as [w1|] eqn:E; [|discriminate].
    eapply IH; [eapply dispatch_entry_stays | |]; eauto.
Qed.

Lemma run_hint evs : forall w w',
  run evs w = Ok w' ->
  machine_id_hint_ (relay w') = machine_id_hint_ (relay w).
Proof.
  induction evs as [|ev evs IH]; intros w w' H; cbn in *.
  - now injection H as <-.
  - unfold mbind, outcome_bind in H.
    destruct (dispatch ev w) as [w1|] eqn:E; [|discriminate].
    rewrite (IH _ _ H). eapply dispatch_hint, E.
Qed.

(* With distinct addresses, the entry found for a socket is its own. *)
Lemma find_own_entry self w pc :
  NoDup (connecting w) ->
  pc ∈ pending_connections_ (relay w) ->
  connecting_client_conn pc = this self ->
  exists i,
    list_find (fun pc => connecting_client_conn pc = this self)
      (pending_connections_ (relay w)) = Some (i, pc).
Proof.
  intros Hnd Hin Hc.
  destruct (list_find_elem_of
              (fun pc => connecting_client_conn pc = this self)
              (pending_connections_ (relay w)) pc Hin Hc) as [[i pc'] E].
  exists i. rewrite E. do 2 f_equal.
  apply list_find_Some in E as (Hi & Hc' & _).
  apply list_elem_of_lookup in Hin as [j Hj].
  assert (i = j) as ->; [|congruence].
  apply (NoDup_lookup (connecting w) i j (this self) Hnd); unfold connecting;
    rewrite list_lookup_fmap; [rewrite Hi | rewrite Hj]; cbn; congruence.
Qed.

(* After the erase no entry is left for the resolved socket. *)
Lemma erased_not_connecting self w i pc :
  NoDup (connecting w) ->
  list_find (fun pc => connecting_client_conn pc = this self)
    (pending_connections_ (relay w)) = Some (i, pc) ->
  this self ∉ connecting_client_conn <$> delete i (pending_connections_ (relay w)).
Proof.
  intros Hnd E Hin. apply list_find_Some in E as (Hi & Hc & _).
  unfold connecting in Hnd.
  rewrite (delete_Permutation _ i (this self)) in Hnd
    by (rewrite list_lookup_fmap, Hi; cbn; congruence).
  apply NoDup_cons in Hnd as [Hnot _].
  now rewrite list_fmap_delete in Hin.
Qed.

(* A reachable service carries the hint computed when it was constructed. *)
Lemma reachable_hint env w :
  reachable env w ->
  machine_id_hint_ (relay w)
  = fst (run_sys (GetMachineIdHint Hasher Update digest cfg false) env).
Proof. intros (evs & _ & H). now rewrite (run_hint _ _ _ H). Qed.

Lemma reachable_NoDup env w : reachable env w -> NoDup (connecting w).
Proof.
  intros (evs & Hok & H). eapply run_NoDup; [|exact Hok|exact H].
  apply NoDup_nil_2.
Qed.

Lemma to_int32_small (x : Z) : 0 <= x < 2 ^ 31 -> to_int32 x = x.
Proof. intros H. unfold to_int32. rewrite Z.mod_small; lia. Qed.

(* The cast to int32_t loses nothing of a 32-bit uid. *)
Lemma to_uint32_to_int32 (x : Z) :
  0 <= x < 2 ^ 32 -> to_uint32 (to_int32 x) = x.
Proof.
  intros H. unfold to_uint32, to_int32.
  rewrite Zminus_mod_idemp_l.
  replace (x + 2 ^ 31 - 2 ^ 31) with x by lia.
  apply Z.mod_small, H.
Qed.

(** C2: when an inbound connection is accepted, the bytes staged on the
    inbound side of the new pending entry are the serialized forged frame;
    that frame has request id 0 and a peer identity carrying the peer's user
    id (as the int32 of the same 32 bits), the service's machine identifier
    hint (the one computed at construction), and the peer's process id on
    Linux and Android and no process id elsewhere. *)
Theorem forged_frame_staged l s c w w' :
  OnNewIncomingConnection l s c w = Ok w' ->
  let frame := forged_frame cfg (machine_id_hint_ (relay w)) s in
  (exists server,
     pending_connections_ (relay w')
     = (pending_connections_ (relay w) ++ [pending_entry server c])%list
     /\ data server = Serialize frame)
  /\ request_id frame = Some 0
  /\ exists identity,
      set_peer_identity frame = Some identity
      /\ uid identity = Some (to_int32 (peer_uid_posix s))
      /\ (0 <= peer_uid_posix s < 2 ^ 32 ->
          to_uint32 (to_int32 (peer_uid_posix s)) = peer_uid_posix s)
      /\ (0 <= peer_uid_posix s < 2 ^ 31 ->
          to_int32 (peer_uid_posix s) = peer_uid_posix s)
      /\ machine_id_hint identity = Some (machine_id_hint_ (relay w))
      /\ (forall env, reachable env w ->
          machine_id_hint identity
          = Some (fst (run_sys
                         (GetMachineIdHint Hasher Update digest cfg false) env)))
      /\ pid identity = (if os_linux_android (os cfg)
                         then Some (peer_pid_linux s) else None).
Proof.
  intros H frame.
  apply accept_inv in H as (_ & _ & server & -> & Hdata & _).
  split; [exists server; split; [reflexivity | exact Hdata]|].
  split; [reflexivity|].
  eexists. split; [reflexivity|]. cbn.
  split; [reflexivity|].
  split; [apply to_uint32_to_int32|].
  split; [apply to_int32_small|].
  split; [reflexivity|].
  split; [intros env Hr; now rewrite (reachable_hint env w Hr)|].
  now destruct (os_linux_android (os cfg)).
Qed.

(** C8: the write of the serialized frame into the staging buffer is guarded
    by the check that it fits the buffer's capacity.  A frame larger than the
    capacity never lets the callback return: the process is terminated, by
    that very check once the debug check on the listening socket has passed.
    A frame within the capacity never trips the check, and the callback
    returns. *)
Theorem staging_capacity_check l s c w :
  let req := Serialize (forged_frame cfg (machine_id_hint_ (relay w)) s) in
  let result := OnNewIncomingConnection l s c w in
  ((kBuffSize < length req)%nat ->
   is_Fatal result = true
   /\ (listen_socket_ok l w = true -> result = Fatal CheckAvailableBytes))
  /\ ((length req <= kBuffSize)%nat ->
      result <> Fatal CheckAvailableBytes
      /\ (listen_socket_ok l w = true -> exists w', result = Ok w')).
Proof.
  cbv zeta. split.
  - intros Hbig. destruct (listen_socket_ok l w) eqn:Hl.
    + rewrite accept_overflow by assumption. auto.
    + rewrite accept_dcheck by assumption. split; [reflexivity | discriminate].
  - intros Hfit. destruct (listen_socket_ok l w) eqn:Hl.
    + destruct (accept_ok l s c w Hl Hfit) as (server & -> & _).
      repeat split; try discriminate. eauto.
    + rewrite accept_dcheck by assumption.
      repeat split; discriminate.
Qed.

(** C3: a resolution for an outbound socket with no pending entry is fatal.
    Otherwise, whether the attempt succeeded or failed, the handler returns
    and the pending collection has lost exactly one entry, the first one
    whose connecting socket is the resolved one, all others staying in place;
    with connecting sockets at distinct addresses no entry for the socket
    is left, so a second resolution would find none. *)
Theorem resolved_entry_removed_once self connected w :
  (this self ∉ connecting w ->
   OnConnect self connected w = Fatal CheckPendingFound)
  /\ (this self ∈ connecting w ->
      exists w' i pc,
        OnConnect self connected w = Ok w'
        /\ pending_connections_ (relay w) !! i = Some pc
        /\ connecting_client_conn pc = this self
        /\ pending_connections_ (relay w')
           = delete i (pending_connections_ (relay w))
        /\ (length (pending_connections_ (relay w')) + 1)%nat
           = length (pending_connections_ (relay w))
        /\ pending_connections_ (relay w)
           ≡ₚ pc :: pending_connections_ (relay w')
        /\ (NoDup (connecting w) ->
            (this self ∉ connecting w')
            /\ forall connected',
                OnConnect self connected' w' = Fatal CheckPendingFound)).
Proof.
  split; [apply connect_missing|].
  intros Hin. destruct (connect_finds self w Hin) as (i & pc & E & Hi & Hc).
  assert (exists w',
            OnConnect self connected w = Ok w'
            /\ pending_connections_ (relay w')
               = delete i (pending_connections_ (relay w))) as (w' & Hrun & Hp).
  { destruct connected.
    - rewrite (connect_succeeded self w i pc E). eauto.
    - rewrite (connect_failed self w i pc E). eauto. }
  exists w', i, pc. rewrite Hp.
  split; [exact Hrun|]. split; [exact Hi|]. split; [exact Hc|].
  split; [reflexivity|].
  split; [rewrite length_delete by eauto;
          apply lookup_lt_Some in Hi; lia|].
  split; [now apply delete_Permutation|].
  intros Hnd.
  assert (this self ∉ connecting w') as Hgone.
  { unfold connecting at 1. rewrite Hp.
    eapply erased_not_connecting; eassumption. }
  split; [exact Hgone|]. intros connected'. now apply connect_missing.
Qed.

(* From the acceptance of an inbound connection to the resolution of its
   outbound socket: the entry recorded is the one found. *)
Lemma entry_until_resolved l s c w0 w1 evs w2 self :
  NoDup (connecting w0) -> this c ∉ connecting w0 ->
  OnNewIncomingConnection l s c w0 = Ok w1 ->
  run_ok evs w1 ->
  Forall (fun ev => resolves (this c) ev = false) evs ->
  run evs w1 = Ok w2 ->
  this self = this c ->
  exists i server,
    list_find (fun pc => connecting_client_conn pc = this self)
      (pending_connections_ (relay w2)) = Some (i, pending_entry server c)
    /\ NoDup (connecting w2)
    /\ data server
       = Serialize (forged_frame cfg (machine_id_hint_ (relay w0)) s)
    /\ sock server = sock_raw_ s.
Proof.
  intros Hnd Hfresh Haccept Hok Hres Hrun Hself.
  assert (NoDup (connecting w1)) as Hnd1.
  { apply (dispatch_NoDup (EvNewIncomingConnection l s c) w0 w1); assumption. }
  apply accept_inv in Haccept as (_ & _ & server & -> & Hdata & _ & Hsock).
  assert (NoDup (connecting w2)) as Hnd2 by (eapply run_NoDup; eassumption).
  assert (pending_entry server c ∈ pending_connections_ (relay w2)) as Hin.
  { eapply run_entry_stays; [|exact Hres|exact Hrun].
    cbn. apply elem_of_app. right. apply list_elem_of_singleton. reflexivity. }
  destruct (find_own_entry self w2 (pending_entry server c) Hnd2 Hin
              (eq_sym Hself)) as [i E].
  exists i, server. auto.
Qed.

(** C1: an inbound connection is accepted and, after any callbacks that do
    not resolve its outbound socket, that socket resolves as connected.  Then
    OnConnect returns, and the one pair it adds to the relay handler has, on
    the inbound side, the inbound socket's raw handle and as pending output
    exactly the serialized forged frame of that connection, and on the
    outbound side the outbound socket's raw handle and no pending output. *)
Theorem handoff_carries_forged_frame l s c w0 w1 evs w2 self :
  NoDup (connecting w0) -> this c ∉ connecting w0 ->
  OnNewIncomingConnection l s c w0 = Ok w1 ->
  run_ok evs w1 ->
  Forall (fun ev => resolves (this c) ev = false) evs ->
  run evs w1 = Ok w2 ->
  this self = this c ->
  exists w3 server client,
    OnConnect self true w2 = Ok w3
    /\ socket_relay_handler_ (relay w3)
       = (socket_relay_handler_ (relay w2) ++ [(server, client)])%list
    /\ data server
       = Serialize (forged_frame cfg (machine_id_hint_ (relay w0)) s)
    /\ sock server = sock_raw_ s
    /\ data client = []
    /\ data_size_ client = O
    /\ sock client = sock_raw_ self.
Proof.
  intros Hnd Hfresh Haccept Hok Hres Hrun Hself.
  destruct (entry_until_resolved l s c w0 w1 evs w2 self)
    as (i & server & E & _ & Hdata & Hsock); try assumption.
  rewrite (connect_succeeded self w2 i _ E).
  eexists _, server, _. split; [reflexivity|]. cbn.
  split; [reflexivity|]. auto.
Qed.

(** C4: an inbound connection is accepted and, after any callbacks that do
    not resolve its outbound socket, that socket resolves as failed.  Then
    OnConnect returns having given the relay handler nothing; the entry that
    held the staged frame is erased and no entry is left for the socket; and
    every raw handle the entry owned - the inbound socket's, and the
    outbound socket's if it still has one - has been closed. *)
Theorem failed_attempt_discards l s c w0 w1 evs w2 self :
  NoDup (connecting w0) -> this c ∉ connecting w0 ->
  OnNewIncomingConnection l s c w0 = Ok w1 ->
  run_ok evs w1 ->
  Forall (fun ev => resolves (this c) ev = false) evs ->
  run evs w1 = Ok w2 ->
  this self = this c ->
  exists w3 i server,
    OnConnect self false w2 = Ok w3
    /\ socket_relay_handler_ (relay w3) = socket_relay_handler_ (relay w2)
    /\ pending_connections_ (relay w2) !! i = Some (pending_entry server c)
    /\ data server
       = Serialize (forged_frame cfg (machine_id_hint_ (relay w0)) s)
    /\ pending_connections_ (relay w3)
       = delete i (pending_connections_ (relay w2))
    /\ (this self ∉ connecting w3)
    /\ (forall h, sock_raw_ s = Some h -> h ∈ closed w3)
    /\ (forall h, sock_raw_ self = Some h -> h ∈ closed w3).
Proof.
  intros Hnd Hfresh Haccept Hok Hres Hrun Hself.
  destruct (entry_until_resolved l s c w0 w1 evs w2 self)
    as (i & server & E & Hnd2 & Hdata & Hsock); try assumption.
  rewrite (connect_failed self w2 i _ E).
  eexists _, i, server. split; [reflexivity|]. cbn.
  split; [reflexivity|].
  split; [now apply list_find_Some in E as (Hi & _)|].
  split; [exact Hdata|]. split; [reflexivity|].
  split; [eapply erased_not_connecting; eassumption|].
  unfold destroy_PendingConnection, destroy_SocketPair,
    destroy_SocketWithBuffer, destroy_UnixSocket. cbn. rewrite Hsock.
  split; intros h ->; rewrite !elem_of_app, !list_elem_of_singleton; auto.
Qed.

(** C9, amended: in a build with debug checks on, a disconnect or
    data-available notification terminates the process, whatever the socket
    and the state of the engine; in a build with them off, the handler
    returns and leaves the engine as it was. *)
Theorem unreachable_callbacks self w :
  OnDisconnect cfg self w
  = (if dcheck_is_on cfg then Fatal DfatalUnreachable else Ok w)
  /\ OnDataAvailable cfg self w
     = (if dcheck_is_on cfg then Fatal DfatalUnreachable else Ok w).
Proof.
  unfold OnDisconnect, OnDataAvailable. unfold_outcome.
  now destruct (dcheck_is_on cfg).
Qed.

End EngineFacts.

(** *** The engine on a sample run *)

Section SampleRun.
Import Sample.

Abbreviation accept := (OnNewIncomingConnection Serialize kBuffSize linux_debug).
Abbreviation run_debug := (run Serialize kBuffSize linux_debug).

(* [w0] is where construction and Start lead. *)
Example sample_started :
  run_debug [EvStart listen_name client_name (Some listener)]
    (world_new Fnv1a.kOffsetBasis Fnv1a.Update Fnv1a.digest linux_debug
       env_boot_id)
  = Ok w0.
Proof. vm_compute. reflexivity. Qed.

Example sample_forged_frame :
  forged_frame linux_debug boot_uuid producer2
  = {| request_id := Some 0;
       set_peer_identity :=
         Some {| pid := Some 77; uid := Some (-2);
                 machine_id_hint := Some boot_uuid |} |}.
Proof. vm_compute. reflexivity. Qed.

Lemma sample_fresh (p : ptr) (l : list ptr) : bool_decide (p ∉ l) = true -> p ∉ l.
Proof. apply bool_decide_eq_true_1. Qed.

Lemma sample_member (p : ptr) (l : list ptr) : bool_decide (p ∈ l) = true -> p ∈ l.
Proof. apply bool_decide_eq_true_1. Qed.

Lemma sample_NoDup (l : list ptr) : bool_decide (NoDup l) = true -> NoDup l.
Proof. apply bool_decide_eq_true_1. Qed.

End SampleRun.

Lemma handoff_carries_forged_frame_witness :
  exists w1 w2,
    OnNewIncomingConnection Sample.Serialize Sample.kBuffSize Sample.linux_debug
      10%positive Sample.producer Sample.upstream Sample.w0 = Ok w1
    /\ run Sample.Serialize Sample.kBuffSize Sample.linux_debug
         Sample.interleaved w1 = Ok w2
    /\ exists w3 server client,
        OnConnect Sample.upstream true w2 = Ok w3
        /\ socket_relay_handler_ (relay w3)
           = (socket_relay_handler_ (relay w2) ++ [(server, client)])%list
        /\ data server
           = Sample.Serialize
               (forged_frame Sample.linux_debug Sample.boot_uuid Sample.producer)
        /\ sock server = Some 7
        /\ data client = []
        /\ data_size_ client = O
        /\ sock client = Some 8.
Proof.
  eexists. eexists.
  split; [vm_compute; reflexivity|].
  split; [vm_compute; reflexivity|].
  eapply (handoff_carries_forged_frame Sample.Serialize Sample.kBuffSize
            Sample.linux_debug 10%positive Sample.producer Sample.upstream
            Sample.w0 _ Sample.interleaved _ Sample.upstream).
  - apply NoDup_nil_2.
  - apply not_elem_of_nil.
  - vm_compute. reflexivity.
  - cbn [run_ok Sample.interleaved]. split; [|split; [exact I|]].
    + apply sample_fresh. vm_compute. reflexivity.
    + vm_compute. exact I.
  - repeat constructor.
  - vm_compute. reflexivity.
  - reflexivity.
Defined.

(* A peer whose uid has the top bit set: the frame carries it as -2. *)
Lemma forged_frame_staged_witness :
  exists w' server,
    OnNewIncomingConnection Sample.Serialize Sample.kBuffSize Sample.linux_debug
      10%positive Sample.producer2 Sample.upstream2 Sample.w0 = Ok w'
    /\ pending_connections_ (relay w')
       = [pending_entry Sample.kBuffSize server Sample.upstream2]
    /\ data server
       = Sample.Serialize
           {| request_id := Some 0;
              set_peer_identity :=
                Some {| pid := Some 77; uid := Some (-2);
                        machine_id_hint := Some Sample.boot_uuid |} |}.
Proof.
  destruct (forged_frame_staged Fnv1a.kOffsetBasis Fnv1a.Update Fnv1a.digest
              Sample.Serialize Sample.kBuffSize Sample.linux_debug
              10%positive Sample.producer2 Sample.upstream2 Sample.w0 _ eq_refl)
    as [(server & Hpending & Hdata) _].
  eexists _, server. split; [reflexivity|].
  split; [exact Hpending | exact Hdata].
Defined.

(* Too small a buffer ends the process; the sample capacity does not. *)
Lemma staging_capacity_check_witness :
  OnNewIncomingConnection Sample.Serialize 16 Sample.linux_debug
    10%positive Sample.producer Sample.upstream Sample.w0
  = Fatal CheckAvailableBytes
  /\ exists w',
      OnNewIncomingConnection Sample.Serialize Sample.kBuffSize
        Sample.linux_debug 10%positive Sample.producer Sample.upstream
        Sample.w0 = Ok w'.
Proof.
  split.
  - destruct (staging_capacity_check Sample.Serialize 16 Sample.linux_debug
                10%positive Sample.producer Sample.upstream Sample.w0)
      as [H _].
    apply H; [apply Nat.ltb_lt; vm_compute; reflexivity | reflexivity].
  - destruct (staging_capacity_check Sample.Serialize Sample.kBuffSize
                Sample.linux_debug 10%positive Sample.producer Sample.upstream
                Sample.w0) as [_ H].
    apply H; [apply Nat.leb_le; vm_compute; reflexivity | reflexivity].
Defined.

(* The one pending entry goes when its outbound attempt fails, and a second
   resolution of the same socket would find nothing. *)
Lemma resolved_entry_removed_once_witness :
  exists w1,
    OnNewIncomingConnection Sample.Serialize Sample.kBuffSize Sample.linux_debug
      10%positive Sample.producer Sample.upstream Sample.w0 = Ok w1
    /\ this Sample.upstream_failed ∈ connecting w1
    /\ exists w',
        OnConnect Sample.upstream_failed false w1 = Ok w'
        /\ pending_connections_ (relay w') = []
        /\ (this Sample.upstream_failed ∉ connecting w')
        /\ OnConnect Sample.upstream_failed true w' = Fatal CheckPendingFound.
Proof.
  eexists. split; [vm_compute; reflexivity|].
  match goal with
  | |- _ ∈ connecting ?w /\ _ =>
      assert (this Sample.upstream_failed ∈ connecting w) as Hin
        by (apply sample_member; vm_compute; reflexivity);
      assert (NoDup (connecting w)) as Hnd
        by (apply sample_NoDup; vm_compute; reflexivity);
      destruct (resolved_entry_removed_once Sample.upstream_failed false w)
        as [_ H]
  end.
  split; [exact Hin|].
  destruct (H Hin) as (w' & i & pc & Hrun & _ & _ & Hp & _ & _ & Hagain).
  exists w'. split; [exact Hrun|].
  destruct (Hagain Hnd) as [Hgone Hfatal].
  split; [|split; [exact Hgone | apply Hfatal]].
  vm_compute in Hrun. injection Hrun as <-. reflexivity.
Defined.

(* The attempt fails: nothing is handed over and the producer's handle, 7,
   is closed. *)
Lemma failed_attempt_discards_witness :
  exists w1 w2,
    OnNewIncomingConnection Sample.Serialize Sample.kBuffSize Sample.linux_debug
      10%positive Sample.producer Sample.upstream Sample.w0 = Ok w1
    /\ run Sample.Serialize Sample.kBuffSize Sample.linux_debug
         Sample.interleaved w1 = Ok w2
    /\ exists w3 i server,
        OnConnect Sample.upstream_failed false w2 = Ok w3
        /\ socket_relay_handler_ (relay w3) = socket_relay_handler_ (relay w2)
        /\ pending_connections_ (relay w2) !! i
           = Some (pending_entry Sample.kBuffSize server Sample.upstream)
        /\ data server
           = Sample.Serialize
               (forged_frame Sample.linux_debug Sample.boot_uuid Sample.producer)
        /\ pending_connections_ (relay w3)
           = delete i (pending_connections_ (relay w2))
        /\ (this Sample.upstream_failed ∉ connecting w3)
        /\ (forall h, Some 7 = Some h -> h ∈ closed w3)
        /\ (forall h, None = Some h -> h ∈ closed w3).
Proof.
  eexists. eexists.
  split; [vm_compute; reflexivity|].
  split; [vm_compute; reflexivity|].
  eapply (failed_attempt_discards Sample.Serialize Sample.kBuffSize
            Sample.linux_debug 10%positive Sample.producer Sample.upstream
            Sample.w0 _ Sample.interleaved _ Sample.upstream_failed).
  - apply NoDup_nil_2.
  - apply not_elem_of_nil.
  - vm_compute. reflexivity.
  - cbn [run_ok Sample.interleaved]. split; [|split; [exact I|]].
    + apply sample_fresh. vm_compute. reflexivity.
    + vm_compute. exact I.
  - repeat constructor.
  - vm_compute. reflexivity.
  - reflexivity.
Defined.

(* C9 as stated fails: in a build without debug checks both notifications,
   for an outbound socket the engine still tracks, return and change nothing. *)
Lemma unreachable_callbacks_release_counterexample :
  exists w1,
    OnNewIncomingConnection Sample.Serialize Sample.kBuffSize
      Sample.linux_release 10%positive Sample.producer Sample.upstream
      Sample.w0 = Ok w1
    /\ this Sample.upstream ∈ connecting w1
    /\ OnDisconnect Sample.linux_release Sample.upstream w1 = Ok w1
    /\ OnDataAvailable Sample.linux_release Sample.upstream w1 = Ok w1
    /\ is_Fatal (OnDisconnect Sample.linux_release Sample.upstream w1) = false
    /\ is_Fatal (OnDataAvailable Sample.linux_release Sample.upstream w1) = false.
Proof.
  eexists. split; [vm_compute; reflexivity|].
  split; [apply sample_member; vm_compute; reflexivity|].
  repeat split.
Qed.

(** * Further properties *)

(** ** The calls GetMachineIdHint makes and the digest it prints *)

Section MachineIdHintCalls.
Import StringUtils StringFacts.

Context {HasherT : Type}.
Variable Hasher : HasherT.
Variable Update : HasherT -> list byte -> HasherT.
Variable digest : HasherT -> Z.
Variable cfg : BuildConfig.

Abbreviation GetMachineIdHint := (GetMachineIdHint Hasher Update digest cfg).


(** X2: when the fallback supplies the hint (flag set or boot-id file
    unreadable, a platform with a fallback, both sources answering), reading
    the hint as a hexadecimal number gives back the 64-bit digest of the two
    inputs: the hint loses nothing of the digest. *)
Theorem GetMachineIdHint_digest_value (env : Env) (flag : bool)
  (btime info : list byte) :
  flag = true \/ env_ReadFile env boot_id_path = None ->
  os_android_linux_apple (os cfg) = true ->
  btime_source cfg env = Some btime ->
  env_uname env = Some info ->
  parse_hex (fst (run_sys (GetMachineIdHint flag) env)) 0
  = digest (Update (Update Hasher btime) info) mod 2 ^ 64.
Proof.
  intros Hfb Hos Hb Hu.
  rewrite (GetMachineIdHint_fallback_value _ _ _ _ env flag Hfb).
  rewrite fallback_value, Hos, Hb, Hu.
  apply Uint64ToHexStringNoPrefix_value.
Qed.

(** X13: forcing the fallback with the test flag gives the very hint the
    service computes when the boot-id file cannot be read. *)
Theorem GetMachineIdHint_flag_as_unreadable (env : Env) :
  env_ReadFile env boot_id_path = None ->
  fst (run_sys (GetMachineIdHint true) env)
  = fst (run_sys (GetMachineIdHint false) env).
Proof.
  intros H.
  rewrite !(GetMachineIdHint_fallback_value Hasher Update digest cfg env)
    by tauto.
  reflexivity.
Qed.

End MachineIdHintCalls.

(** ** Invariants of the engine *)

Lemma bind_delete_elem {A B} (f : A -> list B) (l : list A) i x (h : B) :
  l !! i = Some x ->
  h ∈ l ≫= f <-> h ∈ f x \/ h ∈ delete i l ≫= f.
Proof.
  intros Hi. rewrite (delete_Permutation l i x Hi) at 1.
  now rewrite bind_cons, elem_of_app.
Qed.

Lemma held_elem w (h : fd) :
  h ∈ held w
  <-> h ∈ from_option destroy_UnixSocket [] (listening_socket_ (relay w))
      \/ h ∈ (pending_connections_ (relay w)
                ≫= fun pc => destroy_SocketPair (socket_pair pc))
      \/ h ∈ (socket_relay_handler_ (relay w) ≫= destroy_SocketPair).
Proof. unfold held. now rewrite !elem_of_app. Qed.

Lemma raw_handle_elem (raw : option fd) (s : SocketWithBuffer) (h : fd) :
  h ∈ destroy_SocketWithBuffer (set_sock raw s)
  <-> h ∈ match raw with Some x => [x] | None => [] end.
Proof. reflexivity. Qed.

(* The handles of a pair whose outbound side is untouched, before and
   after the outbound handle is put in. *)
Lemma staged_pair_handles kBuffSize (sp : SocketPair) (raw : option fd) (h : fd) :
  snd sp = SocketWithBuffer_new kBuffSize ->
  (h ∈ destroy_SocketPair sp <-> h ∈ destroy_SocketWithBuffer (fst sp))
  /\ (h ∈ destroy_SocketPair (fst sp, set_sock raw (snd sp))
      <-> h ∈ match raw with Some x => [x] | None => [] end
          \/ h ∈ destroy_SocketWithBuffer (fst sp)).
Proof.
  intros Hout. unfold destroy_SocketPair. cbn [fst snd].
  rewrite !elem_of_app, raw_handle_elem, Hout. cbn.
  rewrite elem_of_nil. tauto.
Qed.

(* The world a resolution leaves, for the two values of [connected]. *)
Lemma connect_cases self connected w w' :
  OnConnect self connected w = Ok w' ->
  exists i pc,
    pending_connections_ (relay w) !! i = Some pc
    /\ connecting_client_conn pc = this self
    /\ w' = if connected
            then {| relay :=
                      set_pending (delete i (pending_connections_ (relay w)))
                        (AddSocketPair
                           (fst (socket_pair pc),
                            set_sock (sock_raw_ self) (snd (socket_pair pc)))
                           (relay w));
                    closed := closed w |}
            else {| relay :=
                      set_pending (delete i (pending_connections_ (relay w)))
                        (relay w);
                    closed :=
                      closed w
                      ++ destroy_PendingConnection (Some (socket_pair pc)) self |}.
Proof.
  intros H.
  destruct (list_find (fun pc => connecting_client_conn pc = this self)
              (pending_connections_ (relay w))) as [[i pc]|] eqn:E.
  - exists i, pc. pose proof E as (Hi & Hc & _)%list_find_Some.
    split; [exact Hi|]. split; [exact Hc|].
    destruct connected.
    + rewrite (connect_succeeded self w i pc E) in H. congruence.
    + rewrite (connect_failed self w i pc E) in H. congruence.
  - unfold OnConnect in H. rewrite E in H. discriminate.
Qed.

(* The world Start leaves. *)
Lemma Start_cases l c listened w w' :
  Start l c listened w = Ok w' ->
  exists s,
    listened = Some s /\ is_listening s = true
    /\ w' = {| relay :=
                 {| listening_socket_ := Some s;
                    client_socket_name_ := c;
                    machine_id_hint_ := machine_id_hint_ (relay w);
                    pending_connections_ := pending_connections_ (relay w);
                    socket_relay_handler_ := socket_relay_handler_ (relay w) |};
               closed :=
                 closed w
                 ++ from_option destroy_UnixSocket [] (listening_socket_ (relay w)) |}.
Proof.
  unfold Start, mbind, outcome_bind, PERFETTO_FATAL.
  destruct listened as [s|]; cbn; [|discriminate].
  destruct (is_listening s) eqn:Hs; cbn; [|discriminate].
  intros [= <-]. exists s. rewrite Hs. auto.
Qed.

Lemma find_last_entry (l : list PendingConnection) (e : PendingConnection) p :
  p ∉ connecting_client_conn <$> l ->
  connecting_client_conn e = p ->
  list_find (fun pc => connecting_client_conn pc = p) (l ++ [e])
  = Some (length l, e).
Proof.
  intros Hfresh He. apply list_find_Some. split; [|split].
  - rewrite lookup_app_r by lia. now rewrite Nat.sub_diag.
  - exact He.
  - intros j y Hj Hlt Hy. apply Hfresh. rewrite <- Hy.
    apply list_elem_of_fmap_2. eapply list_elem_of_lookup_2.
    rewrite lookup_app_l in Hj by exact Hlt. exact Hj.
Qed.

Lemma to_int32_range (x : Z) : - 2 ^ 31 <= to_int32 x < 2 ^ 31.
Proof.
  unfold to_int32.
  pose proof (Z.mod_pos_bound (x + 2 ^ 31) (2 ^ 32) ltac:(lia)). lia.
Qed.


Section EngineInvariants.

Variable Serialize : IPCFrame -> list byte.
Variable kBuffSize : nat.
Variable cfg : BuildConfig.

Abbreviation OnNewIncomingConnection :=
  (OnNewIncomingConnection Serialize kBuffSize cfg).
Abbreviation dispatch := (dispatch Serialize kBuffSize cfg).
Abbreviation run := (run Serialize kBuffSize cfg).
Abbreviation run_ok := (run_ok Serialize kBuffSize cfg).
Abbreviation pending_entry := (pending_entry kBuffSize).
Abbreviation listen_socket_ok := (listen_socket_ok cfg).
Abbreviation staged_entry := (staged_entry Serialize kBuffSize cfg).
Abbreviation handed_pair := (handed_pair Serialize cfg).
Abbreviation staging_inv := (staging_inv Serialize kBuffSize cfg).



(** *** What is staged stays staged *)

Lemma dispatch_staging ev w w' :
  staging_inv w -> dispatch ev w = Ok w' -> staging_inv w'.
Proof.
  intros [Hp Hh] H.
  destruct ev as [l c listened | l s c | self connected | self | self];
    cbn [dispatch] in H.
  - apply Start_cases in H as (s & _ & _ & ->). split; assumption.
  - apply accept_inv in H as (_ & _ & server & -> & Hdata & _ & Hsock).
    split; [|exact Hh]. cbn. apply Forall_app. split; [exact Hp|].
    apply Forall_singleton. split; [|reflexivity]. exists s. auto.
  - apply connect_cases in H as (i & pc & Hi & _ & ->).
    pose proof (proj1 (Forall_lookup _ _) Hp i pc Hi) as [Hin Hout].
    destruct connected; cbn; (split; [now apply Forall_delete|]);
      [|exact Hh].
    apply Forall_app. split; [exact Hh|]. apply Forall_singleton.
    split; [exact Hin|]. cbn. now rewrite Hout.
  - now rewrite (unreachable_inv cfg self w w' (or_introl H)).
  - now rewrite (unreachable_inv cfg self w w' (or_intror H)).
Qed.




(** *** Counting connections *)

Lemma dispatch_counts ev w w' :
  dispatch ev w = Ok w' ->
  length (socket_relay_handler_ (relay w'))
  = (length (socket_relay_handler_ (relay w))
     + (if is_resolution true ev then 1 else 0))%nat
  /\ (length (pending_connections_ (relay w'))
      + (if is_resolution true ev then 1 else 0)
      + (if is_resolution false ev then 1 else 0))%nat
     = (length (pending_connections_ (relay w))
        + (if is_accept ev then 1 else 0))%nat.
Proof.
  intros H.
  destruct ev as [l c listened | l s c | self connected | self | self];
    cbn [dispatch] in H; cbn [is_resolution is_accept].
  - apply Start_cases in H as (s & _ & _ & ->). cbn. lia.
  - apply accept_inv in H as (_ & _ & server & -> & _). cbn.
    rewrite length_app. cbn. lia.
  - apply connect_cases in H as (i & pc & Hi & _ & ->).
    apply lookup_lt_Some in Hi.
    destruct connected; cbn; rewrite ?length_app, length_delete by eauto using lookup_lt_is_Some_2;
      cbn; lia.
  - rewrite (unreachable_inv cfg self w w' (or_introl H)). lia.
  - rewrite (unreachable_inv cfg self w w' (or_intror H)). lia.
Qed.

(** X5: over any run that the process survives, the pairs given to the relay
    handler grow by the number of successful resolutions, and the pending
    entries by the number of accepted connections less the number of
    resolutions of either kind: each accepted connection is pending, handed
    over or discarded. *)
Theorem connections_accounted evs : forall w w',
  run evs w = Ok w' ->
  length (socket_relay_handler_ (relay w'))
  = (length (socket_relay_handler_ (relay w))
     + count (is_resolution true) evs)%nat
  /\ (length (pending_connections_ (relay w'))
      + count (is_resolution true) evs
      + count (is_resolution false) evs)%nat
     = (length (pending_connections_ (relay w)) + count is_accept evs)%nat.
Proof.
  unfold count.
  induction evs as [|ev evs IH]; intros w w' H; cbn in H.
  - injection H as <-. cbn. lia.
  - unfold mbind, outcome_bind in H.
    destruct (dispatch ev w) as [w1|] eqn:E; [|discriminate].
    destruct (dispatch_counts ev w w1 E) as [Hh Hp].
    destruct (IH w1 w' H) as [IHh IHp]. cbn [List.filter].
    destruct (is_resolution true ev), (is_resolution false ev), (is_accept ev);
      cbn [length]; lia.
Qed.

(** *** What is handed over or closed stays so *)



(** *** No raw handle is lost *)





(* The outbound side of a pending entry holds no handle while the staging
   invariant holds, so the assignment in OnConnect overwrites none. *)
Lemma dispatch_handles ev w w' (h : fd) :
  staging_inv w -> dispatch ev w = Ok w' ->
  h ∈ held w \/ h ∈ closed w \/ h ∈ given ev ->
  h ∈ held w' \/ h ∈ closed w'.
Proof.
  intros [Hp _] H.
  destruct ev as [l c listened | l s c | self connected | self | self];
    cbn [dispatch given] in *.
  - apply Start_cases in H as (s & -> & _ & ->).
    rewrite !held_elem.
    cbn [relay closed listening_socket_ pending_connections_
           socket_relay_handler_].
    rewrite elem_of_app. tauto.
  - apply accept_inv in H as (_ & _ & server & -> & _ & _ & Hsock).
    rewrite !held_elem.
    cbn [relay closed listening_socket_ pending_connections_
           socket_relay_handler_ set_pending].
    rewrite bind_app, bind_singleton, elem_of_app.
    destruct (staged_pair_handles kBuffSize
                (socket_pair (pending_entry server c)) None h eq_refl) as [-> _].
    unfold pending_entry. cbn [socket_pair fst].
    unfold destroy_SocketWithBuffer, destroy_UnixSocket. rewrite Hsock. tauto.
  - apply connect_cases in H as (i & pc & Hi & _ & ->).
    pose proof (proj1 (Forall_lookup _ _) Hp i pc Hi) as [_ Hout].
    destruct (staged_pair_handles kBuffSize (socket_pair pc) (sock_raw_ self) h
                Hout)
      as [Hold Hnew].
    rewrite (held_elem w), (bind_delete_elem _ _ i pc h Hi), Hold.
    destruct connected; rewrite held_elem;
      cbn [relay closed listening_socket_ pending_connections_
             socket_relay_handler_ set_pending AddSocketPair].
    + rewrite bind_app, bind_singleton, elem_of_app, Hnew.
      unfold destroy_UnixSocket. tauto.
    + rewrite !elem_of_app. unfold destroy_PendingConnection.
      rewrite elem_of_app, Hold. tauto.
  - rewrite (unreachable_inv cfg self w w' (or_introl H)).
    rewrite elem_of_nil. tauto.
  - rewrite (unreachable_inv cfg self w w' (or_intror H)).
    rewrite elem_of_nil. tauto.
Qed.

(** X7: no raw handle is lost.  From a state where every pending entry is
    as staged, over any run that the process survives, a handle the service
    answered for, one already closed, or one brought in by a callback of the
    run (the listening socket's, an accepted socket's, a resolved outbound
    socket's) is at the end still answered for - by the listening socket, a
    pending entry or a pair of the relay handler - or has been closed. *)
Theorem handles_never_leak evs : forall w w' (h : fd),
  staging_inv w -> run evs w = Ok w' ->
  h ∈ held w \/ h ∈ closed w \/ Exists (fun ev => h ∈ given ev) evs ->
  h ∈ held w' \/ h ∈ closed w'.
Proof.
  induction evs as [|ev evs IH]; intros w w' h Hinv H Hh; cbn in H.
  - injection H as <-. rewrite Exists_nil in Hh. tauto.
  - unfold mbind, outcome_bind in H.
    destruct (dispatch ev w) as [w1|] eqn:E; [|discriminate].
    apply (IH w1 w' h); [eapply dispatch_staging; eassumption | exact H |].
    rewrite Exists_cons in Hh.
    destruct Hh as [Hh | [Hh | [Hh | Hh]]]; [| | |tauto];
      (destruct (dispatch_handles ev w w1 h Hinv E); [tauto | tauto | tauto]).
Qed.

(** *** Accepting, then failing *)


(** X8: accepting a connection and then failing its outbound attempt leaves
    the service exactly as it was before the accept - same pending entries,
    same pairs with the relay handler - and closes the outbound socket's
    handle, if it still has one, and then the inbound socket's, and nothing
    else. *)
Theorem accept_then_fail_restores l s c self w w1 :
  this c ∉ connecting w ->
  OnNewIncomingConnection l s c w = Ok w1 ->
  this self = this c ->
  OnConnect self false w1
  = Ok {| relay := relay w;
          closed := closed w ++ destroy_UnixSocket self ++ destroy_UnixSocket s |}.
Proof.
  intros Hfresh Haccept Hself.
  apply accept_inv in Haccept as (_ & _ & server & -> & _ & _ & Hsock).
  rewrite (connect_failed self _ (length (pending_connections_ (relay w)))
             (pending_entry server c)).
  - cbn. rewrite (delete_middle _ [] (pending_entry server c)), app_nil_r.
    unfold destroy_PendingConnection, destroy_SocketPair,
      destroy_SocketWithBuffer, destroy_UnixSocket. cbn. rewrite Hsock.
    now destruct w as [[] ?].
  - cbn. apply find_last_entry; [now rewrite Hself | now rewrite Hself].
Qed.






(** *** Stray notifications in a run *)

Lemma run_cons ev evs w :
  run (ev :: evs) w
  = match dispatch ev w with
    | Ok w1 => run evs w1
    | Fatal why => Fatal why
    end.
Proof. reflexivity. Qed.

(** X12: in a build with debug checks, a run that holds a disconnect or
    data-available notification never ends well: the process is terminated,
    at the notification at the latest.  In a build without them, the run ends
    exactly as it would with those notifications left out. *)
Theorem notifications_in_a_run evs : forall w,
  (dcheck_is_on cfg = true ->
   Exists (fun ev => is_notification ev = true) evs ->
   is_Fatal (run evs w) = true)
  /\ (dcheck_is_on cfg = false ->
      run evs w
      = run (List.filter (fun ev => negb (is_notification ev)) evs) w).
Proof.
  induction evs as [|ev evs IH]; intros w.
  - split; [intros _ H; now apply Exists_nil in H | reflexivity].
  - split.
    + intros Hd Hex. cbn. unfold mbind, outcome_bind.
      destruct (dispatch ev w) as [w1|] eqn:E; [|reflexivity].
      apply Exists_cons in Hex as [Hev | Hex]; [|now apply IH].
      destruct ev; try discriminate Hev; cbn in E;
        unfold OnDisconnect, OnDataAvailable, PERFETTO_DFATAL, PERFETTO_FATAL,
          mbind, outcome_bind in E;
        rewrite Hd in E; discriminate.
    + intros Hd. cbn [List.filter].
      destruct ev as [? ? ? | ? ? ? | ? ? | self | self];
        cbn [is_notification negb]; rewrite !run_cons;
        try (destruct (dispatch _ w); [now apply IH | reflexivity]).
      * cbn [dispatch].
        unfold OnDisconnect, PERFETTO_DFATAL, mbind, outcome_bind.
        rewrite Hd. now apply IH.
      * cbn [dispatch].
        unfold OnDataAvailable, PERFETTO_DFATAL, mbind, outcome_bind.
        rewrite Hd. now apply IH.
Qed.

End EngineInvariants.

(** ** From construction on *)

Section EngineFromConstruction.

Context {HasherT : Type}.
Variable Hasher : HasherT.
Variable Update : HasherT -> list byte -> HasherT.
Variable digest : HasherT -> Z.
Variable Serialize : IPCFrame -> list byte.
Variable kBuffSize : nat.
Variable cfg : BuildConfig.

Abbreviation OnNewIncomingConnection :=
  (OnNewIncomingConnection Serialize kBuffSize cfg).
Abbreviation listen_socket_ok := (listen_socket_ok cfg).
Abbreviation reachable :=
  (reachable Hasher Update digest Serialize kBuffSize cfg).
Abbreviation staged_entry := (staged_entry Serialize kBuffSize cfg).
Abbreviation handed_pair := (handed_pair Serialize cfg).
Abbreviation staging_inv := (staging_inv Serialize kBuffSize cfg).


(** X4: if the socket library never gives a new outbound socket the address
    of one that is still connecting, no two pending entries ever wait for the
    same socket. *)
Theorem connecting_sockets_distinct env w :
  reachable env w -> NoDup (connecting w).
Proof.
  intros (evs & Hok & H).
  apply (run_NoDup Serialize kBuffSize cfg evs (world_new Hasher Update digest cfg env) w);
    [apply NoDup_nil_2 | exact Hok | exact H].
Qed.

(** *** The listening socket and the debug check *)

(** X10: the check of the listening socket exists in debug builds only.
    On a service that was constructed but not started, a debug build ends the
    process at any accept.  After a successful Start, an accept reported on
    the socket Start listened on passes the check and returns when the frame
    fits the buffer; an accept reported on any other socket ends the process
    in a debug build; and a build without debug checks treats every listening
    socket alike. *)
Theorem listen_socket_checked_in_debug_only env ln cn ls l s c w w1 :
  (dcheck_is_on cfg = true ->
   OnNewIncomingConnection l s c (world_new Hasher Update digest cfg env)
   = Fatal DcheckListenSocket)
  /\ (Start ln cn (Some ls) w = Ok w1 ->
      ((length (Serialize (forged_frame cfg (machine_id_hint_ (relay w)) s))
        <= kBuffSize)%nat ->
       exists w2, OnNewIncomingConnection (this ls) s c w1 = Ok w2)
      /\ (dcheck_is_on cfg = true -> l <> this ls ->
          OnNewIncomingConnection l s c w1 = Fatal DcheckListenSocket)
      /\ (dcheck_is_on cfg = false ->
          OnNewIncomingConnection l s c w1
          = OnNewIncomingConnection (this ls) s c w1)).
Proof.
  split.
  - intros Hd. apply accept_dcheck. unfold listen_socket_ok. now rewrite Hd.
  - intros (s' & [= <-] & _ & ->)%Start_cases. split; [|split].
    + intros Hfit.
      match goal with
      | |- exists w2, OnNewIncomingConnection _ _ _ ?W = _ =>
          destruct (accept_ok Serialize kBuffSize cfg (this ls) s c W)
            as (server & -> & _); [|exact Hfit|eauto]
      end.
      unfold listen_socket_ok. cbn. rewrite bool_decide_eq_true_2 by reflexivity.
      apply orb_true_r.
    + intros Hd Hne. apply accept_dcheck. unfold listen_socket_ok.
      rewrite Hd. cbn. apply bool_decide_eq_false_2. congruence.
    + intros Hd. unfold OnNewIncomingConnection, PERFETTO_DCHECK.
      now rewrite Hd.
Qed.

End EngineFromConstruction.

(** ** Start, the entry a resolution takes, and the identity a frame carries *)

(** X15: a resolution takes the first pending entry, in order of
    acceptance, whose connecting socket is at the address of the resolved
    one: no earlier entry matches, and every other entry, a later one at the
    same address included, stays pending. *)
Theorem resolution_takes_first_match self connected w w' :
  OnConnect self connected w = Ok w' ->
  exists i pc,
    pending_connections_ (relay w) !! i = Some pc
    /\ connecting_client_conn pc = this self
    /\ (forall j pc', (j < i)%nat ->
         pending_connections_ (relay w) !! j = Some pc' ->
         connecting_client_conn pc' <> this self)
    /\ pending_connections_ (relay w')
       = (take i (pending_connections_ (relay w))
          ++ drop (S i) (pending_connections_ (relay w)))%list.
Proof.
  intros H. apply connect_inv in H as (i & pc & E & ->).
  apply list_find_Some in E as (Hi & Hc & Hfirst).
  exists i, pc. split; [exact Hi|]. split; [exact Hc|].
  split; [|apply delete_take_drop].
  intros j pc' Hlt Hj. exact (Hfirst j pc' Hj Hlt).
Qed.


(** X14: Start ends the process exactly when no listening socket was
    obtained (a null pointer, or a socket that is not listening).  Otherwise
    it returns having recorded the socket and the client socket name, with
    the hint, the pending entries and the relay handler's pairs untouched,
    and having closed the handle of the listening socket it replaced, if
    there was one. *)
Theorem Start_needs_a_listening_socket ln cn listened w :
  (Start ln cn listened w = Fatal FatalListen
   <-> ~ exists s, listened = Some s /\ is_listening s = true)
  /\ (forall w', Start ln cn listened w = Ok w' ->
      listening_socket_ (relay w') = listened
      /\ client_socket_name_ (relay w') = cn
      /\ machine_id_hint_ (relay w') = machine_id_hint_ (relay w)
      /\ pending_connections_ (relay w') = pending_connections_ (relay w)
      /\ socket_relay_handler_ (relay w') = socket_relay_handler_ (relay w)
      /\ closed w'
         = (closed w
            ++ from_option destroy_UnixSocket [] (listening_socket_ (relay w)))%list).
Proof.
  split.
  - unfold Start, mbind, outcome_bind, PERFETTO_FATAL.
    destruct listened as [s|]; cbn.
    + destruct (is_listening s) eqn:Hs; cbn.
      * split; [discriminate | intros H; destruct H; eauto].
      * split; [|reflexivity]. intros _ (s' & [= <-] & Hs'). congruence.
    + split; [|reflexivity]. intros _ (s' & [=] & _).
  - intros w' (s & -> & _ & ->)%Start_cases. cbn. auto 10.
Qed.

(** X11: the forged frame determines the identity it was made from.  Two
    peers with 32-bit user ids get the same frame only if the hints are the
    same, the user ids are the same and, on Linux and Android, the process
    ids are the same; and the user id field always fits an int32. *)
Theorem forged_frame_determines_identity cfg hint1 hint2 s1 s2 :
  0 <= peer_uid_posix s1 < 2 ^ 32 ->
  0 <= peer_uid_posix s2 < 2 ^ 32 ->
  forged_frame cfg hint1 s1 = forged_frame cfg hint2 s2 ->
  hint1 = hint2
  /\ peer_uid_posix s1 = peer_uid_posix s2
  /\ (os_linux_android (os cfg) = true -> peer_pid_linux s1 = peer_pid_linux s2)
  /\ (exists u, (set_peer_identity (forged_frame cfg hint1 s1) ≫= uid) = Some u
                /\ - 2 ^ 31 <= u < 2 ^ 31).
Proof.
  intros H1 H2 Heq. unfold forged_frame, mutable_set_peer_identity in *.
  assert (hint1 = hint2
          /\ to_int32 (peer_uid_posix s1) = to_int32 (peer_uid_posix s2)
          /\ (os_linux_android (os cfg) = true ->
              peer_pid_linux s1 = peer_pid_linux s2)) as (Hh & Hu & Hp).
  { destruct (os_linux_android (os cfg)); cbn in Heq;
      injection Heq; intros; repeat split; congruence. }
  split; [exact Hh|]. split; [|split; [exact Hp|]].
  - rewrite <- (to_uint32_to_int32 (peer_uid_posix s1) H1).
    rewrite <- (to_uint32_to_int32 (peer_uid_posix s2) H2). now rewrite Hu.
  - exists (to_int32 (peer_uid_posix s1)). split; [|apply to_int32_range].
    now destruct (os_linux_android (os cfg)).
Qed.

(** *** The further properties on sample runs *)

Section SampleRunFacts.
Import Sample SampleRuns.

Lemma run_ok_cons Serialize kBuffSize cfg ev evs w w1 :
  event_ok ev w ->
  dispatch Serialize kBuffSize cfg ev w = Ok w1 ->
  run_ok Serialize kBuffSize cfg evs w1 ->
  run_ok Serialize kBuffSize cfg (ev :: evs) w.
Proof. intros Hev E Hok. cbn. now rewrite E. Qed.

Lemma run_app Serialize kBuffSize cfg evs1 evs2 w w1 :
  run Serialize kBuffSize cfg evs1 w = Ok w1 ->
  run Serialize kBuffSize cfg (evs1 ++ evs2)%list w
  = run Serialize kBuffSize cfg evs2 w1.
Proof.
  revert w. induction evs1 as [|ev evs1 IH]; intros w H; cbn in *.
  - now injection H as <-.
  - unfold mbind, outcome_bind in *.
    destruct (dispatch Serialize kBuffSize cfg ev w); [auto | discriminate].
Qed.

Example sample_opening :
  run Serialize kBuffSize linux_debug opening fresh_world = Ok w_mid.
Proof. vm_compute. reflexivity. Qed.

Example sample_closing :
  run Serialize kBuffSize linux_debug closing w_mid = Ok w_end.
Proof. vm_compute. reflexivity. Qed.

Local Ltac step_ok :=
  eapply run_ok_cons;
  [ first [exact I | apply sample_fresh; vm_compute; reflexivity]
  | vm_compute; reflexivity
  | ].

Lemma sample_run_ok :
  run_ok Serialize kBuffSize linux_debug (opening ++ closing)%list fresh_world.
Proof. unfold opening, closing. cbn [app]. repeat step_ok. exact I. Qed.

Lemma sample_closing_ok :
  run_ok Serialize kBuffSize linux_debug closing w_mid.
Proof. unfold closing. repeat step_ok. exact I. Qed.

Lemma sample_reachable :
  reachable Fnv1a.kOffsetBasis Fnv1a.Update Fnv1a.digest Serialize kBuffSize
    linux_debug env_boot_id w_end.
Proof.
  exists (opening ++ closing)%list. split; [exact sample_run_ok|].
  rewrite (run_app _ _ _ _ _ _ _ sample_opening). exact sample_closing.
Qed.

End SampleRunFacts.

Lemma GetMachineIdHint_digest_value_witness :
  let env := Sample.env_of None (Some Sample.some_btime)
               (Some Sample.some_utsname) in
  StringUtils.parse_hex
    (fst (run_sys (GetMachineIdHint Fnv1a.kOffsetBasis Fnv1a.Update
                     Fnv1a.digest Sample.linux_debug false) env)) 0
  = Fnv1a.digest
      (Fnv1a.Update (Fnv1a.Update Fnv1a.kOffsetBasis Sample.some_btime)
         Sample.some_utsname) mod 2 ^ 64.
Proof.
  cbv zeta.
  apply (GetMachineIdHint_digest_value Fnv1a.kOffsetBasis Fnv1a.Update
           Fnv1a.digest Sample.linux_debug); [right| | |]; reflexivity.
Defined.

Lemma GetMachineIdHint_flag_as_unreadable_witness :
  let env := Sample.env_of None (Some Sample.some_btime)
               (Some Sample.some_utsname) in
  fst (run_sys (GetMachineIdHint Fnv1a.kOffsetBasis Fnv1a.Update Fnv1a.digest
                  Sample.linux_debug true) env)
  = fst (run_sys (GetMachineIdHint Fnv1a.kOffsetBasis Fnv1a.Update
                    Fnv1a.digest Sample.linux_debug false) env).
Proof.
  cbv zeta.
  apply (GetMachineIdHint_flag_as_unreadable Fnv1a.kOffsetBasis Fnv1a.Update
           Fnv1a.digest Sample.linux_debug). reflexivity.
Defined.


Lemma connecting_sockets_distinct_witness :
  connecting SampleRuns.w_end = [32%positive]
  /\ NoDup (connecting SampleRuns.w_end).
Proof.
  split; [reflexivity|].
  apply (connecting_sockets_distinct Fnv1a.kOffsetBasis Fnv1a.Update
           Fnv1a.digest Sample.Serialize Sample.kBuffSize Sample.linux_debug
           Sample.env_boot_id SampleRuns.w_end sample_reachable).
Defined.

(* Three accepted, one paired, one failed: one pending, one handed over. *)
Lemma connections_accounted_witness :
  length (socket_relay_handler_ (relay SampleRuns.w_end))
  = (0 + count (is_resolution true) (SampleRuns.opening ++ SampleRuns.closing)%list)%nat
  /\ (length (pending_connections_ (relay SampleRuns.w_end))
      + count (is_resolution true) (SampleRuns.opening ++ SampleRuns.closing)%list
      + count (is_resolution false) (SampleRuns.opening ++ SampleRuns.closing)%list)%nat
     = (0 + count is_accept (SampleRuns.opening ++ SampleRuns.closing)%list)%nat.
Proof.
  apply (connections_accounted Sample.Serialize Sample.kBuffSize
           Sample.linux_debug (SampleRuns.opening ++ SampleRuns.closing)%list
           SampleRuns.fresh_world SampleRuns.w_end).
  rewrite (run_app _ _ _ _ _ _ _ sample_opening). exact sample_closing.
Defined.


(* Handle 7, the first producer's, came in with its accept and is closed at
   the end; handle 12, the third producer's, is still answered for. *)
Lemma handles_never_leak_witness :
  (7 ∈ held SampleRuns.w_end \/ 7 ∈ closed SampleRuns.w_end)
  /\ (12 ∈ held SampleRuns.w_end \/ 12 ∈ closed SampleRuns.w_end).
Proof.
  assert (run Sample.Serialize Sample.kBuffSize Sample.linux_debug
            (SampleRuns.opening ++ SampleRuns.closing)%list SampleRuns.fresh_world
          = Ok SampleRuns.w_end) as Hrun.
  { rewrite (run_app _ _ _ _ _ _ _ sample_opening). exact sample_closing. }
  assert (staging_inv Sample.Serialize Sample.kBuffSize Sample.linux_debug
            SampleRuns.fresh_world) as Hinv by (split; constructor).
  split.
  - apply (handles_never_leak Sample.Serialize Sample.kBuffSize
             Sample.linux_debug _ _ _ 7 Hinv Hrun).
    right. right. apply Exists_cons_tl, Exists_cons_hd.
    apply list_elem_of_here.
  - apply (handles_never_leak Sample.Serialize Sample.kBuffSize
             Sample.linux_debug _ _ _ 12 Hinv Hrun).
    right. right. do 4 apply Exists_cons_tl. apply Exists_cons_hd.
    apply list_elem_of_here.
Defined.

Lemma accept_then_fail_restores_witness :
  exists w1,
    OnNewIncomingConnection Sample.Serialize Sample.kBuffSize Sample.linux_debug
      10%positive Sample.producer Sample.upstream Sample.w0 = Ok w1
    /\ OnConnect Sample.upstream_failed false w1
       = Ok {| relay := relay Sample.w0; closed := [7] |}.
Proof.
  eexists. split; [vm_compute; reflexivity|].
  apply (accept_then_fail_restores Sample.Serialize Sample.kBuffSize
           Sample.linux_debug 10%positive Sample.producer Sample.upstream
           Sample.upstream_failed Sample.w0).
  - apply not_elem_of_nil.
  - vm_compute. reflexivity.
  - reflexivity.
Defined.


Lemma listen_socket_checked_in_debug_only_witness :
  OnNewIncomingConnection Sample.Serialize Sample.kBuffSize Sample.linux_debug
    10%positive Sample.producer Sample.upstream SampleRuns.fresh_world
  = Fatal DcheckListenSocket
  /\ exists w1,
      Start Sample.listen_name Sample.client_name (Some Sample.listener)
        SampleRuns.fresh_world = Ok w1
      /\ (exists w2,
            OnNewIncomingConnection Sample.Serialize Sample.kBuffSize
              Sample.linux_debug 10%positive Sample.producer Sample.upstream
              w1 = Ok w2)
      /\ OnNewIncomingConnection Sample.Serialize Sample.kBuffSize
           Sample.linux_debug 11%positive Sample.producer Sample.upstream w1
         = Fatal DcheckListenSocket.
Proof.
  split.
  - destruct (listen_socket_checked_in_debug_only Fnv1a.kOffsetBasis
                Fnv1a.Update Fnv1a.digest Sample.Serialize Sample.kBuffSize
                Sample.linux_debug Sample.env_boot_id Sample.listen_name
                Sample.client_name Sample.listener 10%positive Sample.producer
                Sample.upstream SampleRuns.fresh_world Sample.w0) as [H _].
    apply H. reflexivity.
  - exists Sample.w0. split; [reflexivity|].
    destruct (listen_socket_checked_in_debug_only Fnv1a.kOffsetBasis
                Fnv1a.Update Fnv1a.digest Sample.Serialize Sample.kBuffSize
                Sample.linux_debug Sample.env_boot_id Sample.listen_name
                Sample.client_name Sample.listener 11%positive Sample.producer
                Sample.upstream SampleRuns.fresh_world Sample.w0) as [_ H].
    destruct (H eq_refl) as (Hfit & Hother & _).
    split.
    + apply Hfit. apply Nat.leb_le. vm_compute. reflexivity.
    + apply Hother; [reflexivity | discriminate].
Defined.

Lemma Start_needs_a_listening_socket_witness :
  Start Sample.listen_name Sample.client_name None SampleRuns.fresh_world
  = Fatal FatalListen
  /\ Start Sample.listen_name Sample.client_name (Some Sample.upstream)
       SampleRuns.fresh_world = Fatal FatalListen
  /\ closed Sample.w0 = [].
Proof.
  split; [|split].
  - apply (Start_needs_a_listening_socket Sample.listen_name
             Sample.client_name None SampleRuns.fresh_world).
    intros (s & [=] & _).
  - apply (Start_needs_a_listening_socket Sample.listen_name
             Sample.client_name (Some Sample.upstream) SampleRuns.fresh_world).
    intros (s & [= <-] & [=]).
  - destruct (Start_needs_a_listening_socket Sample.listen_name
                Sample.client_name (Some Sample.listener)
                SampleRuns.fresh_world) as [_ H].
    destruct (H Sample.w0 eq_refl) as (_ & _ & _ & _ & _ & ->). reflexivity.
Defined.

(* The third producer has the identity of the first: the frames agree. *)
Lemma forged_frame_determines_identity_witness :
  forged_frame Sample.linux_debug Sample.boot_uuid Sample.producer
  = forged_frame Sample.linux_debug Sample.boot_uuid SampleRuns.producer3
  /\ peer_uid_posix Sample.producer = peer_uid_posix SampleRuns.producer3
  /\ peer_pid_linux Sample.producer = peer_pid_linux SampleRuns.producer3.
Proof.
  split; [reflexivity|].
  destruct (forged_frame_determines_identity Sample.linux_debug
              Sample.boot_uuid Sample.boot_uuid Sample.producer
              SampleRuns.producer3) as (_ & Hu & Hp & _).
  - cbn. lia.
  - cbn. lia.
  - reflexivity.
  - split; [exact Hu | apply Hp; reflexivity].
Defined.

Lemma notifications_in_a_run_witness :
  is_Fatal (run Sample.Serialize Sample.kBuffSize Sample.linux_debug
              [EvNewIncomingConnection 10%positive Sample.producer Sample.upstream;
               EvDataAvailable Sample.upstream;
               EvConnect Sample.upstream true] Sample.w0) = true
  /\ run Sample.Serialize Sample.kBuffSize Sample.linux_release
       [EvNewIncomingConnection 10%positive Sample.producer Sample.upstream;
        EvDataAvailable Sample.upstream;
        EvConnect Sample.upstream true] Sample.w0
     = run Sample.Serialize Sample.kBuffSize Sample.linux_release
         [EvNewIncomingConnection 10%positive Sample.producer Sample.upstream;
          EvConnect Sample.upstream true] Sample.w0.
Proof.
  split.
  - apply (notifications_in_a_run Sample.Serialize Sample.kBuffSize
             Sample.linux_debug); [reflexivity|].
    apply Exists_cons_tl, Exists_cons_hd. reflexivity.
  - apply (notifications_in_a_run Sample.Serialize Sample.kBuffSize
             Sample.linux_release
             [EvNewIncomingConnection 10%positive Sample.producer Sample.upstream;
              EvDataAvailable Sample.upstream;
              EvConnect Sample.upstream true]). reflexivity.
Defined.

(* Two entries at one address, as the socket library rules out: the
   resolution takes the older one and leaves the newer. *)
Lemma resolution_takes_first_match_witness :
  let older := pending_entry Sample.kBuffSize
                 (set_sock (Some 7) (SocketWithBuffer_new Sample.kBuffSize))
                 Sample.upstream in
  let newer := pending_entry Sample.kBuffSize
                 (set_sock (Some 9) (SocketWithBuffer_new Sample.kBuffSize))
                 Sample.upstream in
  let w := {| relay := set_pending [older; newer] (relay Sample.w0);
              closed := [] |} in
  exists w',
    OnConnect Sample.upstream_failed false w = Ok w'
    /\ pending_connections_ (relay w') = [newer].
Proof.
  cbv zeta. eexists. split; [vm_compute; reflexivity|].
  match goal with
  | |- pending_connections_ (relay ?W') = _ =>
      destruct (resolution_takes_first_match Sample.upstream_failed false
                  {| relay :=
                       set_pending
                         [pending_entry Sample.kBuffSize
                            (set_sock (Some 7)
                               (SocketWithBuffer_new Sample.kBuffSize))
                            Sample.upstream;
                          pending_entry Sample.kBuffSize
                            (set_sock (Some 9)
                               (SocketWithBuffer_new Sample.kBuffSize))
                            Sample.upstream]
                         (relay Sample.w0);
                     closed := [] |} W')
        as (i & pc & Hi & _ & Hfirst & _)
  end.
  - vm_compute. reflexivity.
  - destruct i as [|i]; [reflexivity|].
    exfalso. eapply (Hfirst O); [lia | reflexivity | reflexivity].
Defined.
